(** * RedisDataLoader: a read-through cache in front of a batch fetch

  Shallow embedding of the [RedisDataLoader] class (a DataLoader whose
  batch function consults a Redis store before delegating to the
  caller's batch fetch), and the properties of its batch resolution,
  negative caching, priming, existence probe, cache-only read, clearing
  and name registry. *)

From stdpp Require Import gmap strings list fin_maps.
From Stdlib Require Import ZArith.

Local Open Scope Z_scope.

(** ** JavaScript values held in a resolution entry

  [entry.value] has the type [V | undefined | Error]; a deserializer may
  also hand back [null].  [NotFoundError] is the repository's error
  class for a missing entity; it is an [Error]. *)
Inductive jsval (V : Type) : Type :=
| JUndefined
| JNull
| JValue (v : V)
| JNotFoundError (msg : string)
| JError (msg : string).

Arguments JUndefined {V}.
Arguments JNull {V}.
Arguments JValue {V} v.
Arguments JNotFoundError {V} msg.
Arguments JError {V} msg.

(** [x === undefined] *)
Definition isUndefined {V} (x : jsval V) : bool :=
  match x with JUndefined => true | _ => false end.

(** [x == null], the test made by the [??] operator *)
Definition isNullish {V} (x : jsval V) : bool :=
  match x with JUndefined | JNull => true | _ => false end.

(** Modelled from the spec: the class [NotFoundError] of [errors/not-found]
    is not among the sources; it is the explicit error type for the absence
    of an entity, distinct from ordinary failures, hence an [Error] of a
    class of its own.  This is [x instanceof NotFoundError]. *)
Definition instanceofNotFoundError {V} (x : jsval V) : bool :=
  match x with JNotFoundError _ => true | _ => false end.

(** [x instanceof Error] *)
Definition instanceofError {V} (x : jsval V) : bool :=
  match x with JNotFoundError _ | JError _ => true | _ => false end.

(** [a ?? b] *)
Definition coalesce {V} (a b : jsval V) : jsval V :=
  if isNullish a then b else a.

(** [f?.(k)] for an optional function [f] *)
Definition optCall {A V} (f : option (A -> jsval V)) (k : A) : jsval V :=
  match f with
  | Some h => h k
  | None => JUndefined
  end.

(** The outcome of an awaited promise. *)
Inductive promise (V A : Type) : Type :=
| Resolved (a : A)
| Rejected (e : jsval V).

Arguments Resolved {V A} a.
Arguments Rejected {V A} e.

(** ** The Redis store

  The store is the external collaborator; what the loader needs of it is
  [get], [set ... EX ttl], [del] and one scripted existence probe.  An
  entry carries the instant at which it expires and is invisible from
  then on.  Every command of one call of the loader is answered at the
  same instant [now]. *)
Module Redis.

Abbreviation store := (gmap string (string * Z)).

Definition get (now : Z) (st : store) (k : string) : option string :=
  match st !! k with
  | Some (v, expires) => if bool_decide (now < expires) then Some v else None
  | None => None
  end.

(** [SET k v EX ttl], answered with [OK] *)
Definition set (now : Z) (k v : string) (ttl : Z) (st : store) : store :=
  <[k := (v, now + ttl)]> st.

(** [DEL k]: the number of keys removed, and the store afterwards *)
Definition del (now : Z) (k : string) (st : store) : Z * store :=
  (match get now st k with Some _ => 1 | None => 0 end, delete k st).

(** Replies of the script registered by [exist]: Lua's [true] reaches the
    client as the integer 1, a Lua string as a string and [nil] as
    [null] (here [None]). *)
Inductive reply : Type :=
| RInteger (n : Z)
| RString (s : string).

(** [result !== s] on a reply *)
Definition isString (s : string) (r : reply) : bool :=
  match r with
  | RString s' => bool_decide (s' = s)
  | RInteger _ => false
  end.

Definition evalExist (sentinel : string) (now : Z) (st : store) (k : string)
  : option reply :=
  match get now st k with
  | Some v => if bool_decide (v = sentinel) then Some (RString sentinel)
              else Some (RInteger 1)
  | None => None
  end.

End Redis.

Definition NOT_FOUND_STRING : string := "___NOTFOUND___".

(** An insertion-ordered [Set] of strings, as [new Set(array)] builds it and
  [[...set]] reads it back. *)
Definition setAdd (s : list string) (x : string) : list string :=
  if decide (x ∈ s) then s else s ++ [x].

Definition newSet (l : list string) : list string := foldl setAdd [] l.

(** A list with the position of each element. *)
Fixpoint indexed {A} (n : nat) (l : list A) : list (nat * A) :=
  match l with
  | [] => []
  | x :: l => (n, x) :: indexed (S n) l
  end.

(** ** The name registry (static members of the class) *)
Record statics : Type := Statics {
  checkForDuplicates : bool;
  usedNames : gset string
}.

Section Loader.

Context {K V : Type}.

(** How a template literal prints a key when no [cacheKeyFn] is set. *)
Variable keyToString : K -> string.

(** Modelled from the spec: the option types of [types/interfaces]
    ([CustomNotFound], [RedisDataloaderOptionsRequired]) are not among the
    sources.  The fields are the ones the class reads, typed as the
    configuration surface lists them; [redis_x] stands for
    [options.redis.x], and an option left out is [None]. *)
Record options : Type := Options {
  cacheKeyFn : option (K -> string);
  notFound : option (K -> jsval V);
  redis_suffix : option string;
  redis_ttl : Z;
  redis_ttlNotFound : option Z;
  redis_serialize : jsval V -> string;
  redis_deserialize : K -> string -> jsval V
}.

Record RedisDataLoader : Type := Loader {
  name : string;
  underlyingBatchLoadFn : list K -> list (jsval V);
  opts : options
}.

(** One resolution entry of [mapRedisKeyToModelKey]. *)
Record entry : Type := Entry {
  e_redisKey : string;
  e_key : K;
  e_value : jsval V
}.

Definition setValue (v : jsval V) (e : entry) : entry :=
  {| e_redisKey := e_redisKey e; e_key := e_key e; e_value := v |}.

(** *** constructor *)
Definition suffixedName (nm : string) (o : options) : string :=
  match redis_suffix o with
  | Some s => if bool_decide (s = EmptyString) then nm else nm +:+ "-" +:+ s
  | None => nm
  end.

Definition construct (nm : string) (fn : list K -> list (jsval V))
    (o : options) (g : statics) : (string + RedisDataLoader) * statics :=
  let nm' := suffixedName nm o in
  if checkForDuplicates g && bool_decide (nm' ∈ usedNames g) then
    (inl ("RedisDataLoader name " +:+ nm' +:+ " already used"), g)
  else
    (inr {| name := nm'; underlyingBatchLoadFn := fn; opts := o |},
     {| checkForDuplicates := checkForDuplicates g;
        usedNames := {[ nm' ]} ∪ usedNames g |}).

Variable self : RedisDataLoader.

(** *** redisKey *)
Definition redisKey (key : K) : string :=
  name self +:+ ":" +:+
    match cacheKeyFn (opts self) with
    | Some f => f key
    | None => keyToString key
    end.

(** *** store and storeNotFoundError; both answer [result === 'OK'] *)
Definition store (now : Z) (rKey : string) (value : jsval V)
    (st : Redis.store) : bool * Redis.store :=
  let rValue := redis_serialize (opts self) value in
  (true, Redis.set now rKey rValue (redis_ttl (opts self)) st).

Definition ttlNotFoundOrDefault : Z :=
  match redis_ttlNotFound (opts self) with
  | Some t => t
  | None => 30
  end.

Definition storeNotFoundError (now : Z) (rKey : string)
    (st : Redis.store) : bool * Redis.store :=
  (true, Redis.set now rKey NOT_FOUND_STRING ttlNotFoundOrDefault st).

(** *** primeAsync *)
Definition primeAsync (now : Z) (key : K) (value : jsval V)
    (st : Redis.store) : bool * Redis.store :=
  if negb (instanceofError value) then store now (redisKey key) value st
  else (false, st).

(** *** clearAsync *)
Definition clearAsync (now : Z) (keys : list K) (st : Redis.store)
    : promise V Z * Redis.store :=
  match keys with
  | [] => (Rejected (JError "Empty array passed"), st)
  | _ =>
    let '(res, st') :=
      foldl (fun acc key =>
               let '(n, s) := Redis.del now (redisKey key) acc.2 in
               (acc.1 ++ [n], s)) ([], st) keys in
    (Resolved (foldl Z.add 0 res), st')
  end.

(** *** overridedBatchLoad *)
Definition uniqueRedisKeys (keys : list K) : list string :=
  newSet (redisKey <$> keys).

(** [keys.find((o) => this.redisKey(o) === rKey)] *)
Definition findKey (keys : list K) (rKey : string) : option K :=
  List.find (fun o => bool_decide (redisKey o = rKey)) keys.

(** One entry per unique store key.  The source asserts with [!] that
    [find] succeeds; [mapRedisKeyToModelKey_redisKeys] shows that no
    store key is dropped here. *)
Definition mapRedisKeyToModelKey (keys : list K) : list entry :=
  omap (fun rKey =>
          (fun k => {| e_redisKey := rKey; e_key := k; e_value := JUndefined |})
            <$> findKey keys rKey)
       (uniqueRedisKeys keys).

(** The callback run when the reply [data] to [get(entry.redisKey)]
    arrives. *)
Definition onGet (data : option string) (e : entry) : entry :=
  match data with
  | Some d =>
      if bool_decide (d = NOT_FOUND_STRING) then
        setValue (coalesce (optCall (notFound (opts self)) (e_key e)) JUndefined) e
      else setValue (redis_deserialize (opts self) (e_key e) d) e
  | None => e
  end.

(** The [get]s are all issued before any reply is handled and nothing is
    written meanwhile, so every reply is read from [st]; [order] lists
    the entries in the order in which their replies arrive, and each
    callback mutates its own entry in place. *)
Definition readCached (now : Z) (st : Redis.store) (order : list nat)
    (entries : list entry) : list entry :=
  foldl (fun es i => alter (fun e => onGet (Redis.get now st (e_redisKey e)) e) i es)
        entries order.

(** [mapRedisKeyToModelKey.filter(({ value }) => value === undefined)]:
    the selected entries are the very objects of the map, so each is
    kept with its position in the map. *)
Definition keysToLoadFromDatasource (entries : list entry) : list (nat * entry) :=
  filter (fun p => isUndefined (e_value p.2) = true) (indexed 0 entries).

(** The body of [keysToLoadFromDatasource.map((entry, index) => ...)]. *)
Definition saveFetched (now : Z) (underlyingResults : list (jsval V))
    (acc : list entry * Redis.store) (p : nat * (nat * entry))
    : list entry * Redis.store :=
  let '(index, (ref, e)) := p in
  let v := nth index underlyingResults JUndefined in
  let es := alter (setValue v) ref acc.1 in
  if isUndefined v || instanceofNotFoundError v then
    (es, (storeNotFoundError now (e_redisKey e) acc.2).2)
  else if negb (instanceofError v) then
    (es, (store now (e_redisKey e) v acc.2).2)
  else (es, acc.2).

(** [map.find(({ redisKey }) => redisKey === rKey)?.value] *)
Definition findValue (entries : list entry) (rKey : string) : jsval V :=
  match List.find (fun e => bool_decide (e_redisKey e = rKey)) entries with
  | Some e => e_value e
  | None => JUndefined
  end.

(** The answer for one input position. *)
Definition answer (entries : list entry) (key : K) : jsval V :=
  coalesce (coalesce (findValue entries (redisKey key))
                     (optCall (notFound (opts self)) key))
           JNull.

(** What a batch resolution leaves behind: the returned array, the store,
    the key lists passed to the fallback fetch, and the final map. *)
Record batchResult : Type := BatchResult {
  br_values : list (jsval V);
  br_store : Redis.store;
  br_fetched : list (list K);
  br_map : list entry
}.

Definition overridedBatchLoad (order : list nat) (now : Z) (st : Redis.store)
    (keys : list K) : batchResult :=
  let map1 := readCached now st order (mapRedisKeyToModelKey keys) in
  let toLoad := keysToLoadFromDatasource map1 in
  let '(map2, st', fetched) :=
    if bool_decide (0 < length toLoad)%nat then
      let args := (fun p => e_key p.2) <$> toLoad in
      let underlyingResults := underlyingBatchLoadFn self args in
      let '(m, s) :=
        foldl (saveFetched now underlyingResults) (map1, st) (indexed 0 toLoad) in
      (m, s, [args])
    else (map1, st, []) in
  {| br_values := answer map2 <$> keys;
     br_store := st';
     br_fetched := fetched;
     br_map := map2 |}.

(** *** load

    The batch coordinator ([DataLoader], memoization off) hands the keys
    of one tick to the batch function and settles each caller with its
    slot: an [Error] instance rejects, anything else resolves.  This is a
    tick holding the single key [key]; one entry has one arrival order. *)
Definition load (now : Z) (st : Redis.store) (key : K)
    : promise V (jsval V) * Redis.store * list (list K) :=
  let r := overridedBatchLoad [0%nat] now st [key] in
  (match br_values r with
   | v :: _ => if instanceofError v then Rejected v else Resolved v
   | [] => Rejected (JError "batch function returned no slot")
   end, br_store r, br_fetched r).

(** *** exist *)
Definition exist (now : Z) (st : Redis.store) (key : K)
    : promise V bool * Redis.store * list (list K) :=
  match Redis.evalExist NOT_FOUND_STRING now st (redisKey key) with
  | Some result =>
      (Resolved (negb (Redis.isString NOT_FOUND_STRING result)), st, [])
  | None =>
      let '(p, st', fetched) := load now st key in
      (match p with
       | Resolved value => Resolved (negb (isUndefined value))
       | Rejected error =>
           if instanceofNotFoundError error then Resolved false
           else Rejected error
       end, st', fetched)
  end.

(** *** loadCached *)
Definition classifyCached (data : option string) (key : K) : jsval V :=
  match data with
  | Some d =>
      if bool_decide (d = NOT_FOUND_STRING) then
        coalesce (optCall (notFound (opts self)) key) JNull
      else redis_deserialize (opts self) key d
  | None => JNull
  end.

Definition loadCached (order : list nat) (now : Z) (st : Redis.store)
    (keys : list K) : jsval V * Redis.store * list (list K) :=
  let r := overridedBatchLoad order now st keys in
  let datas := (fun key => Redis.get now (br_store r) (redisKey key)) <$> keys in
  let classified := zip_with classifyCached datas keys in
  (match classified with
   | retorno :: _ => retorno
   | [] => JUndefined
   end, br_store r, br_fetched r).

(** ** The resolution, told without mutation

    These definitions restate the steps of a batch resolution over the
    input list; the theorems below relate [overridedBatchLoad] to them. *)

(** One representative logical key per distinct store key: the first key
    of the input that maps to it, in order of first occurrence. *)
Fixpoint representatives (seen : list string) (keys : list K) : list K :=
  match keys with
  | [] => []
  | k :: ks =>
      if decide (redisKey k ∈ seen) then representatives seen ks
      else k :: representatives (seen ++ [redisKey k]) ks
  end.

(** What the store lookup leaves in the value slot of the entry of [k]. *)
Definition cached (now : Z) (st : Redis.store) (k : K) : jsval V :=
  match Redis.get now st (redisKey k) with
  | Some d =>
      if bool_decide (d = NOT_FOUND_STRING) then
        coalesce (optCall (notFound (opts self)) k) JUndefined
      else redis_deserialize (opts self) k d
  | None => JUndefined
  end.

(** The keys still unresolved after the store lookups. *)
Definition misses (now : Z) (st : Redis.store) (keys : list K) : list K :=
  filter (fun k => isUndefined (cached now st k) = true) (representatives [] keys).

(** The store write made for a fetched result [v]. *)
Definition saved (now : Z) (v : jsval V) (rKey : string) (st : Redis.store)
    : Redis.store :=
  if isUndefined v || instanceofNotFoundError v then
    (storeNotFoundError now rKey st).2
  else if negb (instanceofError v) then (store now rKey v st).2
  else st.

(** The map once the fetched results are written into the unresolved
    entries, the [n]-th result and onwards going to them in order. *)
Fixpoint fill (n : nat) (rs : list (jsval V)) (es : list entry) : list entry :=
  match es with
  | [] => []
  | e :: es =>
      if isUndefined (e_value e) then
        setValue (nth n rs JUndefined) e :: fill (S n) rs es
      else e :: fill n rs es
  end.

(** The store once the fetched results are saved. *)
Fixpoint flush (now : Z) (n : nat) (rs : list (jsval V)) (es : list entry)
    (st : Redis.store) : Redis.store :=
  match es with
  | [] => st
  | e :: es =>
      if isUndefined (e_value e) then
        flush now (S n) rs es (saved now (nth n rs JUndefined) (e_redisKey e) st)
      else flush now n rs es st
  end.

(** The first entry under a store key and the index of the fetched result
    that goes to it if it is unresolved. *)
Fixpoint findSlot (n : nat) (es : list entry) (rKey : string)
    : option (nat * entry) :=
  match es with
  | [] => None
  | e :: es =>
      if bool_decide (e_redisKey e = rKey) then Some (n, e)
      else findSlot (if isUndefined (e_value e) then S n else n) es rKey
  end.

End Loader.

(** The entries of the store that have not expired. *)
Definition visible (now : Z) (st : Redis.store) : Redis.store :=
  filter (fun kv => now < kv.2.2) st.

(** Whether a string holds a colon, the separator of [redisKey]. *)
Fixpoint hasColon (s : string) : bool :=
  match s with
  | EmptyString => false
  | String c s' => bool_decide (String c EmptyString = ":") || hasColon s'
  end.

(** ** The synchronous-looking wrappers of the class *)

Section Wrappers.

Context {K V : Type}.
Variable keyToString : K -> string.
Variable self : RedisDataLoader (K:=K) (V:=V).

(** *** clear (deprecated): [clearAsync(key)] is started and its promise
    dropped; what remains is its effect on the store. *)
Definition clear (now : Z) (key : K) (st : Redis.store) : Redis.store :=
  (clearAsync keyToString self now [key] st).2.

(** *** prime: [void this.primeAsync(key, value)] *)
Definition prime (now : Z) (key : K) (value : jsval V) (st : Redis.store)
    : Redis.store :=
  (primeAsync keyToString self now key value st).2.

End Wrappers.

(** ** A concrete loader, used to run the definitions *)
Module Demo.

Definition ser (v : jsval string) : string :=
  match v with
  | JValue s => "v:" +:+ s
  | JNull => "null"
  | _ => "undefined"
  end.

Definition deser (_ : string) (s : string) : jsval string :=
  if bool_decide (String.substring 0 2 s = "v:") then
    JValue (String.substring 2 (String.length s - 2) s)
  else JNull.

Definition source (keys : list string) : list (jsval string) :=
  (fun k => if bool_decide (k = "a") then JValue "X"
            else if bool_decide (k = "e") then JError "boom"
            else JUndefined) <$> keys.

Definition plain : options :=
  {| cacheKeyFn := None; notFound := None; redis_suffix := None;
     redis_ttl := 60; redis_ttlNotFound := None;
     redis_serialize := ser; redis_deserialize := deser |}.

Definition withHandler : options :=
  {| cacheKeyFn := None;
     notFound := Some (fun k => JNotFoundError ("no " +:+ k));
     redis_suffix := None;
     redis_ttl := 60; redis_ttlNotFound := Some 10;
     redis_serialize := ser; redis_deserialize := deser |}.

(** A key normalization that folds the key [A] onto [a]. *)
Definition folding : options :=
  {| cacheKeyFn := Some (fun k => if bool_decide (k = "A") then "a" else k);
     notFound := Some (fun k => JNotFoundError ("no " +:+ k));
     redis_suffix := None;
     redis_ttl := 60; redis_ttlNotFound := Some 10;
     redis_serialize := ser; redis_deserialize := deser |}.

(** A not-found handler that answers null. *)
Definition nullHandler : options :=
  {| cacheKeyFn := None;
     notFound := Some (fun _ => JNull);
     redis_suffix := None;
     redis_ttl := 60; redis_ttlNotFound := Some 10;
     redis_serialize := ser; redis_deserialize := deser |}.

Definition ld (o : options) : RedisDataLoader :=
  {| name := "n"; underlyingBatchLoadFn := source; opts := o |}.

(** A store in which [b] is negatively cached until instant 100. *)
Definition negative : Redis.store := {[ "n:b" := (NOT_FOUND_STRING, 100) ]}.

Definition registry : statics :=
  {| checkForDuplicates := true; usedNames := {[ "n" ]} |}.

End Demo.

(** ** An insertion-ordered [Map]

    What [QuickLRU] uses of the built-in [Map]: [has], [get], [set]
    (a new key goes last, a known key keeps its place), [delete], and
    iteration in insertion order. *)
Module JsMap.

Section JsMap.

Context {K A : Type} `{EqDecision K}.

Fixpoint get (k : K) (m : list (K * A)) : option A :=
  match m with
  | [] => None
  | (k', x) :: m => if decide (k' = k) then Some x else get k m
  end.

Definition has (k : K) (m : list (K * A)) : bool :=
  match get k m with
  | Some _ => true
  | None => false
  end.

Fixpoint set (k : K) (x : A) (m : list (K * A)) : list (K * A) :=
  match m with
  | [] => [(k, x)]
  | (k', y) :: m =>
      if decide (k' = k) then (k', x) :: m else (k', y) :: set k x m
  end.

(** [delete] answers whether the key was there. *)
Definition delete (k : K) (m : list (K * A)) : bool * list (K * A) :=
  (has k m, filter (fun p => p.1 ≠ k) m).

(** [new Map(items)] *)
Definition ofList (items : list (K * A)) : list (K * A) :=
  foldl (fun m p => set p.1 p.2 m) [] items.

End JsMap.

End JsMap.

(** ** QuickLRU *)
Module QuickLRU.

Section QuickLRU.

Context {K V : Type} `{EqDecision K}.

(** A stored item: [{ value, expiry }], the expiry a number or
    undefined. *)
Record item : Type := Item {
  value : V;
  expiry : option Z
}.

(** The private fields.  [maxAge] is [None] for
    [Number.POSITIVE_INFINITY]; [onEviction] records whether a function
    was given, and [evicted] the calls made to it, in order. *)
Record t : Type := Make {
  p_size : Z;
  p_cache : list (K * item);
  p_oldCache : list (K * item);
  p_maxSize : Z;
  p_maxAge : option Z;
  p_onEviction : bool;
  evicted : list (K * V)
}.

Definition withCache (c : list (K * item)) (q : t) : t :=
  Make (p_size q) c (p_oldCache q) (p_maxSize q) (p_maxAge q)
       (p_onEviction q) (evicted q).

Definition withOldCache (c : list (K * item)) (q : t) : t :=
  Make (p_size q) (p_cache q) c (p_maxSize q) (p_maxAge q)
       (p_onEviction q) (evicted q).

Definition withSize (n : Z) (q : t) : t :=
  Make n (p_cache q) (p_oldCache q) (p_maxSize q) (p_maxAge q)
       (p_onEviction q) (evicted q).

Definition withMaxSize (n : Z) (q : t) : t :=
  Make (p_size q) (p_cache q) (p_oldCache q) n (p_maxAge q)
       (p_onEviction q) (evicted q).

Definition withEvicted (l : list (K * V)) (q : t) : t :=
  Make (p_size q) (p_cache q) (p_oldCache q) (p_maxSize q) (p_maxAge q)
       (p_onEviction q) l.

(** *** constructor; [maxSize] and [maxAge] may be left out *)
Definition constructor (maxSize maxAge : option Z) (onEviction : bool)
    : string + t :=
  match maxSize with
  | Some n =>
      if bool_decide (0 < n) then
        if bool_decide (maxAge = Some 0) then
          inl "`maxAge` must be a number greater than 0"
        else inr (Make 0 [] [] n maxAge onEviction [])
      else inl "`maxSize` must be a number greater than 0"
  | None => inl "`maxSize` must be a number greater than 0"
  end.

(** *** #emitEvictions *)
Definition emitEvictions (c : list (K * item)) (q : t) : t :=
  if p_onEviction q then
    withEvicted (evicted q ++ ((fun p => (p.1, value p.2)) <$> c)) q
  else q.

(** *** delete *)
Definition delete (key : K) (q : t) : bool * t :=
  let '(deleted, c) := JsMap.delete key (p_cache q) in
  let q1 := withCache c q in
  let q2 := if deleted then withSize (p_size q1 - 1) q1 else q1 in
  let '(oldDeleted, o) := JsMap.delete key (p_oldCache q2) in
  (oldDeleted || deleted, withOldCache o q2).

(** *** #deleteIfExpired *)
Definition deleteIfExpired (now : Z) (key : K) (it : item) (q : t) : bool * t :=
  match expiry it with
  | Some e =>
      if bool_decide (e ≤ now) then
        delete key (emitEvictions [(key, it)] q)
      else (false, q)
  | None => (false, q)
  end.

(** *** #getOrDeleteIfExpired; [None] is undefined *)
Definition getOrDeleteIfExpired (now : Z) (key : K) (it : item) (q : t)
    : option V * t :=
  let '(deleted, q') := deleteIfExpired now key it q in
  (if deleted then None else Some (value it), q').

(** [item.expiry] as a condition: a number other than 0 *)
Definition truthy (e : option Z) : bool :=
  match e with
  | Some n => negb (bool_decide (n = 0))
  | None => false
  end.

(** *** #getItemValue *)
Definition getItemValue (now : Z) (key : K) (it : item) (q : t) : option V * t :=
  if truthy (expiry it) then getOrDeleteIfExpired now key it q
  else (Some (value it), q).

(** *** #set *)
Definition set_ (key : K) (it : item) (q : t) : t :=
  let q1 := withSize (p_size q + 1) (withCache (JsMap.set key it (p_cache q)) q) in
  if bool_decide (p_maxSize q1 ≤ p_size q1) then
    let q2 := emitEvictions (p_oldCache q1) (withSize 0 q1) in
    withCache [] (withOldCache (p_cache q2) q2)
  else q1.

(** *** #moveToRecent *)
Definition moveToRecent (key : K) (it : item) (q : t) : t :=
  set_ key it (withOldCache (JsMap.delete key (p_oldCache q)).2 q).

(** *** get *)
Definition get (now : Z) (key : K) (q : t) : option V * t :=
  match JsMap.get key (p_cache q) with
  | Some it => getItemValue now key it q
  | None =>
      match JsMap.get key (p_oldCache q) with
      | Some it =>
          let '(deleted, q') := deleteIfExpired now key it q in
          if deleted then (None, q')
          else (Some (value it), moveToRecent key it q')
      | None => (None, q)
      end
  end.

(** *** set; [arg] is the [maxAge] option of the call: left out, or a
    number, or infinity *)
Definition set (now : Z) (key : K) (v : V) (arg : option (option Z)) (q : t) : t :=
  let maxAge := match arg with Some a => a | None => p_maxAge q end in
  let e := match maxAge with Some m => Some (now + m) | None => None end in
  if JsMap.has key (p_cache q) then
    withCache (JsMap.set key (Item v e) (p_cache q)) q
  else set_ key (Item v e) q.

(** *** has *)
Definition has (now : Z) (key : K) (q : t) : bool * t :=
  match JsMap.get key (p_cache q) with
  | Some it => let '(d, q') := deleteIfExpired now key it q in (negb d, q')
  | None =>
      match JsMap.get key (p_oldCache q) with
      | Some it => let '(d, q') := deleteIfExpired now key it q in (negb d, q')
      | None => (false, q)
      end
  end.

(** *** peek *)
Definition peek (now : Z) (key : K) (q : t) : option V * t :=
  match JsMap.get key (p_cache q) with
  | Some it => getItemValue now key it q
  | None =>
      match JsMap.get key (p_oldCache q) with
      | Some it => getItemValue now key it q
      | None => (None, q)
      end
  end.

(** *** clear *)
Definition clear (q : t) : t :=
  withSize 0 (withOldCache [] (withCache [] q)).

(** One turn of a loop that yields the entries that have not expired and
    deletes the others; [guard] is the loop's [!this.#cache.has(key)].  A
    turn deletes no entry but the one it visits, so a loop goes through
    the entries that its map holds when it starts. *)
Definition visit (now : Z) (guard : bool) (acc : list (K * item) * t)
    (p : K * item) : list (K * item) * t :=
  if guard && JsMap.has p.1 (p_cache acc.2) then acc
  else
    let '(deleted, q') := deleteIfExpired now p.1 p.2 acc.2 in
    (if deleted then acc.1 else acc.1 ++ [p], q').

(** *** #entriesAscending, run to its end *)
Definition entriesAscending_ (now : Z) (q : t) : list (K * item) * t :=
  let r1 := foldl (visit now true) ([], q) (p_oldCache q) in
  foldl (visit now false) r1 (p_cache r1.2).

(** *** entriesAscending, run to its end *)
Definition entriesAscending (now : Z) (q : t) : list (K * V) * t :=
  let r := entriesAscending_ now q in
  ((fun p => (p.1, value p.2)) <$> r.1, r.2).

(** *** [Symbol.iterator], run to its end *)
Definition iterator (now : Z) (q : t) : list (K * V) * t :=
  let r1 := foldl (visit now false) ([], q) (p_cache q) in
  let r2 := foldl (visit now true) r1 (p_oldCache r1.2) in
  ((fun p => (p.1, value p.2)) <$> r2.1, r2.2).

(** *** entriesDescending, run to its end *)
Definition entriesDescending (now : Z) (q : t) : list (K * V) * t :=
  let r1 := foldl (visit now false) ([], q) (reverse (p_cache q)) in
  let r2 := foldl (visit now true) r1 (reverse (p_oldCache r1.2)) in
  ((fun p => (p.1, value p.2)) <$> r2.1, r2.2).

(** *** keys and values *)
Definition keys (now : Z) (q : t) : list K * t :=
  let r := iterator now q in (r.1.*1, r.2).

Definition values (now : Z) (q : t) : list V * t :=
  let r := iterator now q in (r.1.*2, r.2).

(** *** resize *)
Definition resize (now : Z) (newSize : Z) (q : t) : string + t :=
  if bool_decide (0 < newSize) then
    let '(items, q1) := entriesAscending_ now q in
    let removeCount := Z.of_nat (length items) - newSize in
    let q2 :=
      if bool_decide (removeCount < 0) then
        withSize (Z.of_nat (length items))
          (withOldCache [] (withCache (JsMap.ofList items) q1))
      else
        let q1' :=
          if bool_decide (0 < removeCount) then
            emitEvictions (take (Z.to_nat removeCount) items) q1
          else q1 in
        withSize 0
          (withCache []
             (withOldCache (JsMap.ofList (drop (Z.to_nat removeCount) items)) q1')) in
    inr (withMaxSize newSize q2)
  else inl "`maxSize` must be a number greater than 0".

(** *** size *)
Definition size (q : t) : Z :=
  if bool_decide (p_size q = 0) then Z.of_nat (length (p_oldCache q))
  else
    let oldCacheSize :=
      Z.of_nat (length (filter (fun p => JsMap.has p.1 (p_cache q) = false)
                               (p_oldCache q))) in
    Z.min (p_size q + oldCacheSize) (p_maxSize q).

(** *** maxSize *)
Definition maxSize (q : t) : Z := p_maxSize q.

(** *** Sequences of calls

    A call of a public method at an instant; [run] makes the calls in
    order and keeps the cache, dropping what they return.  A rejected
    [resize] leaves the cache as it was. *)
Inductive call : Type :=
| CGet (key : K)
| CSet (key : K) (v : V) (arg : option (option Z))
| CHas (key : K)
| CPeek (key : K)
| CDelete (key : K)
| CClear
| CResize (newSize : Z)
| CIterate
| CEntriesAscending
| CEntriesDescending.

Definition step (now : Z) (c : call) (q : t) : t :=
  match c with
  | CGet key => (get now key q).2
  | CSet key v arg => set now key v arg q
  | CHas key => (has now key q).2
  | CPeek key => (peek now key q).2
  | CDelete key => (delete key q).2
  | CClear => clear q
  | CResize n => match resize now n q with inr q' => q' | inl _ => q end
  | CIterate => (iterator now q).2
  | CEntriesAscending => (entriesAscending now q).2
  | CEntriesDescending => (entriesDescending now q).2
  end.

Definition run (cs : list (Z * call)) (q : t) : t :=
  foldl (fun q p => step p.1 p.2 q) q cs.

(** The key a call is about, and whether the call may add a recent
    entry ([set] of a new key, [get] of an old entry). *)
Definition keyOf (c : call) : option K :=
  match c with
  | CGet key | CSet key _ _ | CHas key | CPeek key | CDelete key => Some key
  | _ => None
  end.

Definition mayInsert (c : call) : bool :=
  match c with
  | CGet _ | CSet _ _ _ => true
  | _ => false
  end.

(** Whether an item has expired at an instant. *)
Definition expired (now : Z) (it : item) : bool :=
  match expiry it with
  | Some e => bool_decide (e ≤ now)
  | None => false
  end.

(** What every method keeps: [#size] counts the recent entries and stays
    below [#maxSize], neither map repeats a key, and the old map holds at
    most [#maxSize] entries. *)
Definition wf (q : t) : Prop :=
  p_size q = Z.of_nat (length (p_cache q))
  ∧ NoDup (p_cache q).*1
  ∧ NoDup (p_oldCache q).*1
  ∧ p_size q < p_maxSize q
  ∧ Z.of_nat (length (p_oldCache q)) ≤ p_maxSize q.

End QuickLRU.

End QuickLRU.

(** ** camelCaseKeys: the renaming of one key *)
Module CamelCaseKeys.

Section CamelCaseKeys.

(** The function of [./camelcase], which is not among the sources, and
    [key.length]. *)
Variable camelCase : string -> bool -> string.
Variable keyLength : string -> Z.

(** An element of [exclude]: a string, or a regular expression, which
    is used through [test] alone, with [lastIndex] reset before. *)
Inductive pattern : Type :=
| PString (s : string)
| PRegExp (test : string -> bool).

(** [has(array, key)] *)
Definition has (array : list pattern) (key : string) : bool :=
  existsb (fun x => match x with
                    | PString s => bool_decide (s = key)
                    | PRegExp test => test key
                    end) array.

(** [new QuickLRU({ maxSize: 1000 })] *)
Definition cache : string + QuickLRU.t (K:=string) (V:=string) :=
  QuickLRU.constructor (Some 1000) None false.

(** The part of the mapper that renames the key, with the cache it reads
    and writes; [None] is undefined. *)
Definition renameKey (exclude : option (list pattern)) (pascalCase : bool)
    (now : Z) (key : string) (c : QuickLRU.t (K:=string) (V:=string))
    : option string * QuickLRU.t :=
  if negb (match exclude with
           | Some array => has array key
           | None => false
           end) then
    let cacheKey := if pascalCase then key +:+ "_" else key in
    let '(found, c1) := QuickLRU.has now cacheKey c in
    if found then QuickLRU.get now cacheKey c1
    else
      let ret := camelCase key pascalCase in
      (Some ret,
       if bool_decide (keyLength key < 100) then
         QuickLRU.set now cacheKey ret None c1
       else c1)
  else (Some key, c).

(** The keys renamed one after the other within one call. *)
Definition renameKeys (exclude : option (list pattern)) (pascalCase : bool)
    (keys : list (Z * string)) (c : QuickLRU.t (K:=string) (V:=string))
    : QuickLRU.t :=
  foldl (fun c k => (renameKey exclude pascalCase k.1 k.2 c).2) c keys.

End CamelCaseKeys.

End CamelCaseKeys.

(** ** A concrete cache, used to run the definitions *)
Module DemoLRU.

(** A cache of maximum size 2 with no maximum age. *)
Definition fresh : QuickLRU.t (K:=string) (V:=Z) :=
  QuickLRU.Make 0 [] [] 2 None false [].

(** Three keys set at successive instants. *)
Definition threeSets : list (Z * QuickLRU.call (K:=string) (V:=Z)) :=
  [(0, QuickLRU.CSet "a" 1 None); (1, QuickLRU.CSet "b" 2 None);
   (2, QuickLRU.CSet "c" 3 None)].

(** The cache of camelCaseKeys when it is created. *)
Definition thousand : QuickLRU.t (K:=string) (V:=string) :=
  QuickLRU.Make 0 [] [] 1000 None false [].

End DemoLRU.

(** * Properties *)

(** ** Insertion-ordered sets and positions *)

Lemma setAdd_NoDup (s : list string) (x : string) :
  NoDup s → NoDup (setAdd s x).
Proof.
  intros Hs. unfold setAdd. case_decide; [done|].
  apply NoDup_app. split_and!; [done| |apply NoDup_singleton].
  intros y Hy Hin. apply list_elem_of_singleton in Hin. by subst.
Qed.

Lemma newSet_NoDup_from (acc l : list string) :
  NoDup acc → NoDup (foldl setAdd acc l).
Proof.
  revert acc. induction l as [|x l IH]; intros acc Hacc; [done|].
  simpl. apply IH. by apply setAdd_NoDup.
Qed.

Lemma newSet_NoDup (l : list string) : NoDup (newSet l).
Proof. apply newSet_NoDup_from. constructor. Qed.

Lemma indexed_fmap_snd {A} (n : nat) (l : list A) : (indexed n l).*2 = l.
Proof. revert n. induction l as [|x l IH]; intros n; simpl; f_equal; auto. Qed.

Lemma indexed_length {A} (n : nat) (l : list A) :
  length (indexed n l) = length l.
Proof. revert n. induction l as [|x l IH]; intros n; simpl; f_equal; auto. Qed.

(** Altering every position once, in any order, is a map. *)
Lemma foldl_alter_lookup {A} (f : A → A) (order : list nat) (l : list A) (i : nat) :
  NoDup order →
  foldl (fun es j => alter f j es) l order !! i
  = if decide (i ∈ order) then f <$> l !! i else l !! i.
Proof.
  revert l. induction order as [|j order IH]; intros l Hnd; simpl.
  { done. }
  apply NoDup_cons in Hnd as [Hj Hnd]. rewrite IH by done.
  destruct (decide (i = j)) as [->|Hne].
  - rewrite decide_False by done. rewrite decide_True by left.
    by rewrite list_lookup_alter_eq.
  - rewrite list_lookup_alter_ne by done.
    case_decide as Hin.
    + rewrite decide_True; [done|by right].
    + rewrite decide_False; [done|].
      intros Hin'. apply elem_of_cons in Hin' as [?|?]; done.
Qed.

Lemma foldl_alter_permutation {A} (f : A → A) (order : list nat) (l : list A) :
  order ≡ₚ seq 0 (length l) →
  foldl (fun es j => alter f j es) l order = f <$> l.
Proof.
  intros Hp. assert (NoDup order) as Hnd.
  { rewrite Hp. apply NoDup_seq. }
  apply list_eq. intros i. rewrite foldl_alter_lookup by done.
  rewrite list_lookup_fmap. case_decide as Hin; [done|].
  rewrite Hp in Hin. rewrite elem_of_seq in Hin.
  rewrite (lookup_ge_None_2 l i); [done|lia].
Qed.

(** ** The batch resolution and its mutation-free description *)

Section LoaderFacts.

Context {K V : Type}.
Variable keyToString : K → string.
Variable self : RedisDataLoader (K:=K) (V:=V).

Local Abbreviation rkey := (redisKey keyToString self).
Local Abbreviation reps := (representatives keyToString self).
Local Abbreviation newEntry :=
  (fun k => {| e_redisKey := rkey k; e_key := k; e_value := JUndefined |}).
Local Abbreviation readEntry now st :=
  (fun k => {| e_redisKey := rkey k; e_key := k;
               e_value := cached keyToString self now st k |}).

Lemma newSet_representatives (acc : list string) (keys : list K) :
  foldl setAdd acc (rkey <$> keys) = acc ++ (rkey <$> reps acc keys).
Proof.
  revert acc. induction keys as [|k ks IH]; intros acc; simpl.
  { by rewrite app_nil_r. }
  unfold setAdd at 2. case_decide as Hin; [apply IH|].
  rewrite IH. simpl. by rewrite <- app_assoc.
Qed.

Lemma uniqueRedisKeys_representatives (keys : list K) :
  uniqueRedisKeys keyToString self keys = rkey <$> reps [] keys.
Proof. unfold uniqueRedisKeys, newSet. by rewrite newSet_representatives. Qed.

Lemma representatives_NoDup (keys : list K) : NoDup (rkey <$> reps [] keys).
Proof. rewrite <- uniqueRedisKeys_representatives. apply newSet_NoDup. Qed.

Lemma findKey_app_skip (pre ks : list K) (rk : string) :
  rk ∉ rkey <$> pre →
  findKey keyToString self (pre ++ ks) rk = findKey keyToString self ks rk.
Proof.
  induction pre as [|p pre IH]; intros Hnot; [done|].
  simpl in *. rewrite not_elem_of_cons in Hnot. destruct Hnot as [Hne Hnot].
  unfold findKey in *. simpl. rewrite bool_decide_eq_false_2 by done. by apply IH.
Qed.

Lemma findKey_representative (pre ks : list K) (seen : list string) (k : K) :
  (∀ x, x ∈ seen ↔ x ∈ rkey <$> pre) →
  k ∈ reps seen ks →
  findKey keyToString self (pre ++ ks) (rkey k) = Some k.
Proof.
  revert pre seen. induction ks as [|k0 ks IH]; intros pre seen Hseen Hk; simpl in Hk.
  { by apply not_elem_of_nil in Hk. }
  assert (pre ++ k0 :: ks = (pre ++ [k0]) ++ ks) as Hsplit by by rewrite <- app_assoc.
  case_decide as Hin.
  - rewrite Hsplit. apply (IH _ seen); [|done].
    intros x. rewrite fmap_app, elem_of_app, <- Hseen. simpl.
    rewrite list_elem_of_singleton. split; [tauto|]. by intros [?| ->].
  - apply elem_of_cons in Hk as [->|Hk].
    + rewrite findKey_app_skip by by rewrite <- Hseen.
      unfold findKey. simpl. by rewrite bool_decide_eq_true_2.
    + rewrite Hsplit. apply (IH _ (seen ++ [rkey k0])); [|done].
      intros x. rewrite fmap_app, !elem_of_app, <- Hseen. done.
Qed.

(** No store key is dropped when the map is built: each is found among
    the keys, and the entry keeps the first key that maps to it. *)
Lemma mapRedisKeyToModelKey_representatives (keys : list K) :
  mapRedisKeyToModelKey keyToString self keys = newEntry <$> reps [] keys.
Proof.
  unfold mapRedisKeyToModelKey. rewrite uniqueRedisKeys_representatives.
  assert (∀ k, k ∈ reps [] keys →
               findKey keyToString self keys (rkey k) = Some k) as Hfind.
  { intros k Hk. apply (findKey_representative [] keys [] k); [|done].
    intros x. simpl. done. }
  induction (reps [] keys) as [|k l IH]; [done|].
  simpl. rewrite Hfind by left. simpl. f_equal.
  apply IH. intros k' Hk'. apply Hfind. by right.
Qed.

Lemma mapRedisKeyToModelKey_redisKeys (keys : list K) :
  e_redisKey <$> mapRedisKeyToModelKey keyToString self keys
  = uniqueRedisKeys keyToString self keys.
Proof.
  rewrite mapRedisKeyToModelKey_representatives, uniqueRedisKeys_representatives.
  rewrite <- list_fmap_compose. done.
Qed.

Lemma mapRedisKeyToModelKey_length (keys : list K) :
  length (mapRedisKeyToModelKey keyToString self keys)
  = length (uniqueRedisKeys keyToString self keys).
Proof. by rewrite <- mapRedisKeyToModelKey_redisKeys, length_fmap. Qed.

(** Whatever the arrival order of the replies, the store lookups leave
    [cached] in each entry. *)
Lemma readCached_permutation (now : Z) (st : Redis.store) (order : list nat)
    (keys : list K) :
  order ≡ₚ seq 0 (length (uniqueRedisKeys keyToString self keys)) →
  readCached self now st order (mapRedisKeyToModelKey keyToString self keys)
  = readEntry now st <$> reps [] keys.
Proof.
  intros Hp. unfold readCached.
  rewrite foldl_alter_permutation by by rewrite mapRedisKeyToModelKey_length.
  rewrite mapRedisKeyToModelKey_representatives, <- list_fmap_compose.
  apply list_fmap_ext. intros _ k _. simpl.
  unfold onGet, cached, setValue. simpl.
  destruct (Redis.get now st (rkey k)) as [d|]; [|done].
  by case_bool_decide.
Qed.

(** The unresolved entries, read off the map. *)
Lemma keysToLoadFromDatasource_entries (es : list (entry (K:=K) (V:=V))) (n : nat) :
  (filter (fun p => isUndefined (e_value p.2) = true) (indexed n es)).*2
  = filter (fun e => isUndefined (e_value e) = true) es.
Proof.
  revert n. induction es as [|e es IH]; intros n; [done|].
  simpl. rewrite !filter_cons. simpl.
  case_decide; simpl; by rewrite IH.
Qed.

Lemma misses_entries (now : Z) (st : Redis.store) (keys : list K) :
  e_key <$> filter (fun e => isUndefined (e_value e) = true)
              (readEntry now st <$> reps [] keys)
  = misses keyToString self now st keys.
Proof.
  unfold misses. induction (reps [] keys) as [|k l IH]; [done|].
  rewrite fmap_cons, !filter_cons. cbn [e_value].
  case_decide; [rewrite fmap_cons; cbn [e_key]|]; by rewrite IH.
Qed.

(** Writing the fetched results through the references held by the miss
    list fills the unresolved entries of the map in order. *)
Lemma saveFetched_fold (now : Z) (rs : list (jsval V))
    (pre suf : list entry) (n : nat) (st : Redis.store) :
  foldl (saveFetched self now rs) (pre ++ suf, st)
    (indexed n (filter (fun p => isUndefined (e_value p.2) = true)
                       (indexed (length pre) suf)))
  = (pre ++ fill n rs suf, flush self now n rs suf st).
Proof.
  revert pre n st. induction suf as [|e suf IH]; intros pre n st; [done|].
  simpl. rewrite filter_cons. simpl.
  assert (∀ x : entry, pre ++ x :: suf = (pre ++ [x]) ++ suf) as Hsplit.
  { intros x. by rewrite <- app_assoc. }
  assert (∀ x : entry, S (length pre) = length (pre ++ [x])) as Hlen.
  { intros x. rewrite length_app. simpl. lia. }
  destruct (isUndefined (e_value e)) eqn:Hu.
  - rewrite decide_True by done. simpl.
    set (v := nth n rs JUndefined).
    assert (alter (setValue v) (length pre) (pre ++ e :: suf)
            = (pre ++ [setValue v e]) ++ suf) as Halter.
    { rewrite alter_app_r_alt by lia. rewrite Nat.sub_diag. simpl.
      by rewrite <- app_assoc. }
    rewrite Halter, (Hlen (setValue v e)). unfold saved.
    destruct (isUndefined v || instanceofNotFoundError v);
      [|destruct (negb (instanceofError v))];
      rewrite IH; by rewrite <- app_assoc.
  - rewrite decide_False by done. rewrite Hsplit, (Hlen e).
    rewrite IH. by rewrite <- app_assoc.
Qed.

Lemma fill_resolved (n : nat) (rs : list (jsval V))
    (es : list (entry (K:=K) (V:=V))) :
  filter (fun e => isUndefined (e_value e) = true) es = [] →
  fill n rs es = es.
Proof.
  induction es as [|e es IH]; [done|]. rewrite filter_cons. simpl.
  destruct (isUndefined (e_value e)) eqn:Hu.
  - by rewrite decide_True.
  - rewrite decide_False by done. intros Hf. f_equal. by apply IH.
Qed.

Lemma flush_resolved (now : Z) (n : nat) (rs : list (jsval V))
    (es : list entry) (st : Redis.store) :
  filter (fun e => isUndefined (e_value e) = true) es = [] →
  flush self now n rs es st = st.
Proof.
  induction es as [|e es IH]; [done|]. rewrite filter_cons. simpl.
  destruct (isUndefined (e_value e)) eqn:Hu.
  - by rewrite decide_True.
  - rewrite decide_False by done. intros Hf. by apply IH.
Qed.

(** The batch resolution in terms of [representatives], [cached], [misses],
    [fill] and [flush]. *)
Lemma overridedBatchLoad_unfold (order : list nat) (now : Z) (st : Redis.store)
    (keys : list K) :
  order ≡ₚ seq 0 (length (uniqueRedisKeys keyToString self keys)) →
  let es := readEntry now st <$> reps [] keys in
  let ms := misses keyToString self now st keys in
  let rs := underlyingBatchLoadFn self ms in
  overridedBatchLoad keyToString self order now st keys
  = {| br_values := answer keyToString self (fill 0 rs es) <$> keys;
       br_store := flush self now 0 rs es st;
       br_fetched := match ms with [] => [] | _ => [ms] end;
       br_map := fill 0 rs es |}.
Proof.
  intros Hp es ms rs. unfold overridedBatchLoad.
  rewrite readCached_permutation by done. fold es.
  unfold keysToLoadFromDatasource.
  set (toLoad := filter _ (indexed 0 es)).
  assert ((fun p : nat * entry => e_key p.2) <$> toLoad = ms) as Hms.
  { unfold ms. rewrite <- misses_entries. fold es.
    rewrite <- (keysToLoadFromDatasource_entries es 0). fold toLoad.
    by rewrite <- list_fmap_compose. }
  rewrite Hms. fold rs.
  pose proof (saveFetched_fold now rs [] es 0 st) as Hfold.
  simpl in Hfold. fold toLoad in Hfold. rewrite Hfold.
  case_bool_decide as Hlen.
  - destruct ms; [|done].
    apply fmap_nil_inv in Hms. rewrite Hms in Hlen. simpl in Hlen. lia.
  - assert (toLoad = []) as Hnil.
    { destruct toLoad; [done|]. simpl in Hlen. lia. }
    rewrite Hnil in Hms. simpl in Hms. rewrite <- Hms.
    assert (filter (fun e : entry => isUndefined (e_value e) = true) es = []) as Hres.
    { rewrite <- (keysToLoadFromDatasource_entries es 0). fold toLoad.
      by rewrite Hnil. }
    by rewrite fill_resolved, flush_resolved.
Qed.

(** *** Looking an entry up by store key *)

Lemma findValue_fill (n : nat) (rs : list (jsval V))
    (es : list (entry (K:=K) (V:=V))) (rk : string) :
  findValue (fill n rs es) rk
  = match findSlot n es rk with
    | Some (m, e) =>
        if isUndefined (e_value e) then nth m rs JUndefined else e_value e
    | None => JUndefined
    end.
Proof.
  revert n. induction es as [|e es IH]; intros n; [done|].
  unfold findValue in *. simpl.
  destruct (isUndefined (e_value e)) eqn:Hu; simpl;
    case_bool_decide; simpl; rewrite ?Hu; try done; apply IH.
Qed.

Lemma findSlot_elem (n : nat) (es : list (entry (K:=K) (V:=V))) (rk : string) :
  rk ∈ e_redisKey <$> es →
  ∃ m e, findSlot n es rk = Some (m, e) ∧ e_redisKey e = rk ∧ e ∈ es.
Proof.
  revert n. induction es as [|e es IH]; intros n Hin; simpl in *.
  { by apply not_elem_of_nil in Hin. }
  case_bool_decide as Heq.
  - exists n, e. split_and!; [done|done|left].
  - apply elem_of_cons in Hin as [Hin|Hin]; [by subst|].
    destruct (IH (if isUndefined (e_value e) then S n else n) Hin)
      as (m & e' & Hs & Hk & He).
    exists m, e'. split_and!; [done|done|by right].
Qed.

Lemma findSlot_miss (n j : nat) (es : list (entry (K:=K) (V:=V))) (e : entry) :
  NoDup (e_redisKey <$> es) →
  filter (fun e => isUndefined (e_value e) = true) es !! j = Some e →
  findSlot n es (e_redisKey e) = Some ((n + j)%nat, e).
Proof.
  revert n j. induction es as [|e0 es IH]; intros n j Hnd Hj; [done|].
  rewrite fmap_cons in Hnd. apply NoDup_cons in Hnd as [Hfresh Hnd].
  assert (∀ j', filter (fun e => isUndefined (e_value e) = true) es !! j' = Some e →
                e_redisKey e0 ≠ e_redisKey e) as Hother.
  { intros j' Hj' Heq. apply Hfresh. rewrite Heq.
    apply list_elem_of_fmap_2. apply list_elem_of_lookup_2 in Hj'.
    by apply list_elem_of_filter in Hj' as [_ ?]. }
  rewrite filter_cons in Hj. simpl.
  destruct (isUndefined (e_value e0)) eqn:Hu.
  - rewrite decide_True in Hj by done. destruct j as [|j]; simpl in Hj.
    + injection Hj as ->. rewrite bool_decide_eq_true_2 by done.
      by rewrite Nat.add_0_r.
    + rewrite bool_decide_eq_false_2 by by eapply Hother.
      rewrite (IH (S n) j) by done. do 2 f_equal. lia.
  - rewrite decide_False in Hj by done.
    rewrite bool_decide_eq_false_2 by by eapply Hother.
    by apply IH.
Qed.

Lemma representatives_cover (seen : list string) (keys : list K) (x : string) :
  x ∈ rkey <$> keys → x ∈ seen ∨ x ∈ rkey <$> reps seen keys.
Proof.
  revert seen. induction keys as [|k ks IH]; intros seen Hin; simpl in *.
  { by apply not_elem_of_nil in Hin. }
  apply elem_of_cons in Hin as [->|Hin].
  - case_decide; [by left|right; left].
  - case_decide.
    + by apply IH.
    + destruct (IH (seen ++ [rkey k]) Hin) as [Hs|Hr].
      * apply elem_of_app in Hs as [?|Hs]; [by left|].
        apply list_elem_of_singleton in Hs as ->. right. left.
      * right. by right.
Qed.

Lemma representatives_sublist (seen : list string) (keys : list K) (k : K) :
  k ∈ reps seen keys → k ∈ keys.
Proof.
  revert seen. induction keys as [|k0 ks IH]; intros seen Hk; simpl in *; [done|].
  case_decide.
  - right. by eapply IH.
  - apply elem_of_cons in Hk as [->|Hk]; [left|right; by eapply IH].
Qed.

(** Every input key has its entry in the map. *)
Lemma entry_of_key (now : Z) (st : Redis.store) (keys : list K) (k : K) :
  k ∈ keys →
  ∃ m k', findSlot 0 (readEntry now st <$> reps [] keys) (rkey k)
          = Some (m, readEntry now st k')
          ∧ rkey k' = rkey k ∧ k' ∈ reps [] keys.
Proof.
  intros Hk.
  destruct (findSlot_elem 0 (readEntry now st <$> reps [] keys) (rkey k))
    as (m & e & Hs & Hrk & He).
  { rewrite <- list_fmap_compose.
    assert (rkey k ∈ rkey <$> keys) as Hin by by apply list_elem_of_fmap_2.
    apply (representatives_cover []) in Hin as [Hnil|Hin]; [|done].
    by apply not_elem_of_nil in Hnil. }
  apply list_elem_of_fmap in He as (k' & -> & Hk').
  exists m, k'. by split_and!.
Qed.

Lemma fill_redisKeys (n : nat) (rs : list (jsval V))
    (es : list (entry (K:=K) (V:=V))) :
  e_redisKey <$> fill n rs es = e_redisKey <$> es.
Proof.
  revert n. induction es as [|e es IH]; intros n; [done|].
  simpl. destruct (isUndefined (e_value e)); simpl; by rewrite IH.
Qed.

Lemma findValue_NoDup (es : list (entry (K:=K) (V:=V))) (e : entry) :
  NoDup (e_redisKey <$> es) → e ∈ es →
  findValue es (e_redisKey e) = e_value e.
Proof.
  induction es as [|e0 es IH]; intros Hnd He.
  { by apply not_elem_of_nil in He. }
  rewrite fmap_cons in Hnd. apply NoDup_cons in Hnd as [Hfresh Hnd].
  unfold findValue in *. simpl.
  apply elem_of_cons in He as [->|He].
  { by rewrite bool_decide_eq_true_2. }
  rewrite bool_decide_eq_false_2; [by apply IH|].
  intros Heq. apply Hfresh. rewrite Heq. by apply list_elem_of_fmap_2.
Qed.

Lemma readEntry_redisKeys (now : Z) (st : Redis.store) (l : list K) :
  e_redisKey <$> (readEntry now st <$> l) = rkey <$> l.
Proof. by rewrite <- list_fmap_compose. Qed.

(** *** The store after the fetched results are saved *)

Lemma saved_lookup_ne (now : Z) (v : jsval V) (rk rk' : string) (st : Redis.store) :
  rk ≠ rk' → saved self now v rk st !! rk' = st !! rk'.
Proof.
  intros Hne. unfold saved, storeNotFoundError, store, Redis.set. simpl.
  destruct (isUndefined v || instanceofNotFoundError v);
    [|destruct (negb (instanceofError v))];
    rewrite ?lookup_insert_ne by done; done.
Qed.

Lemma saved_lookup_same (now : Z) (v : jsval V) (rk : string)
    (st1 st2 : Redis.store) :
  st1 !! rk = st2 !! rk →
  saved self now v rk st1 !! rk = saved self now v rk st2 !! rk.
Proof.
  intros Heq. unfold saved, storeNotFoundError, store, Redis.set. simpl.
  destruct (isUndefined v || instanceofNotFoundError v);
    [|destruct (negb (instanceofError v))];
    rewrite ?lookup_insert_eq; done.
Qed.

Lemma flush_lookup_notin (now : Z) (n : nat) (rs : list (jsval V))
    (es : list entry) (st : Redis.store) (rk : string) :
  rk ∉ e_redisKey <$> es → flush self now n rs es st !! rk = st !! rk.
Proof.
  revert n st. induction es as [|e es IH]; intros n st Hnot; [done|].
  rewrite fmap_cons, not_elem_of_cons in Hnot. destruct Hnot as [Hne Hnot].
  simpl. destruct (isUndefined (e_value e)); rewrite IH by done; [|done].
  by apply saved_lookup_ne.
Qed.

Lemma flush_lookup (now : Z) (n : nat) (rs : list (jsval V))
    (es : list entry) (st : Redis.store) (rk : string) :
  NoDup (e_redisKey <$> es) →
  flush self now n rs es st !! rk
  = match findSlot n es rk with
    | Some (m, e) =>
        if isUndefined (e_value e)
        then saved self now (nth m rs JUndefined) rk st !! rk
        else st !! rk
    | None => st !! rk
    end.
Proof.
  revert n st. induction es as [|e es IH]; intros n st Hnd; [done|].
  rewrite fmap_cons in Hnd. apply NoDup_cons in Hnd as [Hfresh Hnd].
  simpl. case_bool_decide as Heq.
  - subst rk. destruct (isUndefined (e_value e)); by rewrite flush_lookup_notin.
  - destruct (isUndefined (e_value e)); rewrite IH by done; [|done].
    destruct (findSlot (S n) es rk) as [[m e']|].
    + destruct (isUndefined (e_value e')).
      * apply saved_lookup_same. by apply saved_lookup_ne.
      * by apply saved_lookup_ne.
    + by apply saved_lookup_ne.
Qed.

(** *** The slot of a fetched key *)

Lemma findSlot_index (n m : nat) (es : list (entry (K:=K) (V:=V)))
    (rk : string) (e : entry) :
  findSlot n es rk = Some (m, e) → isUndefined (e_value e) = true →
  ∃ j, m = (n + j)%nat
       ∧ filter (fun e => isUndefined (e_value e) = true) es !! j = Some e.
Proof.
  revert n. induction es as [|e0 es IH]; intros n Hs Hu; [done|].
  simpl in Hs. rewrite filter_cons. case_bool_decide as Heq.
  - injection Hs as <- <-. exists 0%nat. rewrite decide_True by done.
    split; [lia|done].
  - destruct (isUndefined (e_value e0)) eqn:Hu0.
    + destruct (IH _ Hs Hu) as (j & -> & Hj). exists (S j).
      rewrite decide_True by done. split; [lia|done].
    + destruct (IH _ Hs Hu) as (j & -> & Hj). exists j.
      rewrite decide_False by done. done.
Qed.

Lemma miss_slot (now : Z) (st : Redis.store) (keys : list K) (j : nat) (k : K) :
  misses keyToString self now st keys !! j = Some k →
  filter (fun e => isUndefined (e_value e) = true)
         (readEntry now st <$> reps [] keys) !! j = Some (readEntry now st k)
  ∧ findSlot 0 (readEntry now st <$> reps [] keys) (rkey k)
    = Some (j, readEntry now st k)
  ∧ isUndefined (cached keyToString self now st k) = true.
Proof.
  intros Hj. rewrite <- misses_entries, list_lookup_fmap in Hj.
  destruct (filter _ _ !! j) as [e|] eqn:He; [|done].
  injection Hj as <-.
  assert (e ∈ filter (fun e => isUndefined (e_value e) = true)
                     (readEntry now st <$> reps [] keys)) as Hin.
  { by eapply list_elem_of_lookup_2. }
  apply list_elem_of_filter in Hin as [Hu Hin].
  apply list_elem_of_fmap in Hin as (k & -> & Hk). cbn [e_key e_value] in *.
  split_and!; [done| |done].
  apply (findSlot_miss 0 j _ (readEntry now st k)); [|done].
  rewrite readEntry_redisKeys. apply representatives_NoDup.
Qed.

Lemma findSlot_redisKey (n m : nat) (es : list (entry (K:=K) (V:=V)))
    (rk : string) (e : entry) :
  findSlot n es rk = Some (m, e) → e_redisKey e = rk.
Proof.
  revert n. induction es as [|e0 es IH]; intros n Hs; [done|].
  simpl in Hs. case_bool_decide as Heq; [|by eapply IH].
  by injection Hs as <- <-.
Qed.

(** Results that differ in one slot only differ in the entry of that slot. *)
Lemma fill_agree (rs rs' : list (jsval V)) (es : list (entry (K:=K) (V:=V)))
    (j : nat) (e0 : entry) (rk : string) :
  (∀ j', j' ≠ j → nth j' rs' JUndefined = nth j' rs JUndefined) →
  filter (fun e => isUndefined (e_value e) = true) es !! j = Some e0 →
  rk ≠ e_redisKey e0 →
  findValue (fill 0 rs' es) rk = findValue (fill 0 rs es) rk.
Proof.
  intros Hrs Hj Hne. rewrite !findValue_fill.
  destruct (findSlot 0 es rk) as [[m e]|] eqn:Hs; [|done].
  destruct (isUndefined (e_value e)) eqn:Hu; [|done].
  apply Hrs. intros Hm.
  destruct (findSlot_index _ _ _ _ _ Hs Hu) as (j' & Hm' & Hj').
  simpl in Hm'. assert (e = e0) as -> by congruence.
  apply Hne. symmetry. by eapply findSlot_redisKey.
Qed.

Lemma flush_agree (now : Z) (rs rs' : list (jsval V)) (es : list entry)
    (st : Redis.store) (j : nat) (e0 : entry) (rk : string) :
  NoDup (e_redisKey <$> es) →
  (∀ j', j' ≠ j → nth j' rs' JUndefined = nth j' rs JUndefined) →
  filter (fun e => isUndefined (e_value e) = true) es !! j = Some e0 →
  rk ≠ e_redisKey e0 →
  flush self now 0 rs' es st !! rk = flush self now 0 rs es st !! rk.
Proof.
  intros Hnd Hrs Hj Hne. rewrite !flush_lookup by done.
  destruct (findSlot 0 es rk) as [[m e]|] eqn:Hs; [|done].
  destruct (isUndefined (e_value e)) eqn:Hu; [|done].
  rewrite Hrs; [done|]. intros Hm.
  destruct (findSlot_index _ _ _ _ _ Hs Hu) as (j' & Hm' & Hj').
  simpl in Hm'. assert (e = e0) as -> by congruence.
  apply Hne. symmetry. by eapply findSlot_redisKey.
Qed.

(** *** A tick holding a single key *)

Lemma single_key_batch (now : Z) (st : Redis.store) (k : K) :
  let c := cached keyToString self now st k in
  let v := nth 0 (underlyingBatchLoadFn self [k]) JUndefined in
  overridedBatchLoad keyToString self [0%nat] now st [k]
  = if isUndefined c then
      {| br_values := [coalesce (coalesce v (optCall (notFound (opts self)) k)) JNull];
         br_store := saved self now v (rkey k) st;
         br_fetched := [[k]];
         br_map := [setValue v (readEntry now st k)] |}
    else
      {| br_values := [coalesce (coalesce c (optCall (notFound (opts self)) k)) JNull];
         br_store := st;
         br_fetched := [];
         br_map := [readEntry now st k] |}.
Proof.
  intros c v. rewrite overridedBatchLoad_unfold by done.
  unfold misses. simpl. rewrite filter_cons, filter_nil. fold c.
  destruct (isUndefined c) eqn:Hc.
  - rewrite decide_True by done. fold v.
    unfold answer, findValue. simpl. by rewrite bool_decide_eq_true_2.
  - rewrite decide_False by done.
    unfold answer, findValue. simpl. by rewrite bool_decide_eq_true_2.
Qed.

(** A key whose store lookup resolves is loaded from the store alone. *)
Lemma load_cached (now : Z) (st : Redis.store) (k : K) :
  let c := cached keyToString self now st k in
  let v := coalesce (coalesce c (optCall (notFound (opts self)) k)) JNull in
  isUndefined c = false →
  load keyToString self now st k
  = (if instanceofError v then Rejected v else Resolved v, st, []).
Proof.
  intros c v Hc. unfold load. rewrite single_key_batch. fold c. by rewrite Hc.
Qed.

(** *** Claims on one batch resolution *)

Lemma cached_unresolved (now : Z) (st : Redis.store) (k : K) :
  isUndefined (cached keyToString self now st k) = true
  ↔ Redis.get now st (rkey k) = None
    ∨ (Redis.get now st (rkey k) = Some NOT_FOUND_STRING
       ∧ isNullish (optCall (notFound (opts self)) k) = true)
    ∨ (∃ d, Redis.get now st (rkey k) = Some d ∧ d ≠ NOT_FOUND_STRING
            ∧ redis_deserialize (opts self) k d = JUndefined).
Proof.
  unfold cached. destruct (Redis.get now st (rkey k)) as [d|].
  - case_bool_decide as Hd.
    + subst d. unfold coalesce.
      generalize (optCall (notFound (opts self)) k). intros v. split.
      * intros Hu. right. left. split; [done|]. by destruct v.
      * intros [?|[[_ Hn]|(d & [= <-] & Hne & _)]]; [done| |done].
        by rewrite Hn.
    + split.
      * intros Hu. right. right. exists d. split_and!; [done|done|].
        revert Hu. by destruct (redis_deserialize (opts self) k d).
      * intros [?|[[[= ->] _]|(d' & [= <-] & _ & ->)]]; done.
  - split; [by left|done].
Qed.

(** C1 (amended).  Whatever the input key list, a batch resolution calls
    the fallback fetch at most once, and not at all when nothing is left
    unresolved.  The key list it passes is, in entry order, the
    representative key (the first input key) of each distinct store key
    whose store lookup left the entry undefined: the store key is absent,
    or it holds the sentinel while the not-found handler is missing or
    yields null or undefined, or its stored string deserializes to
    undefined. *)
Theorem fallback_called_once_with_unresolved_keys
    (order : list nat) (now : Z) (st : Redis.store) (keys : list K) :
  order ≡ₚ seq 0 (length (uniqueRedisKeys keyToString self keys)) →
  let r := overridedBatchLoad keyToString self order now st keys in
  let ms := filter (fun k => isUndefined (cached keyToString self now st k) = true)
                   (reps [] keys) in
  br_fetched r = match ms with [] => [] | _ => [ms] end
  ∧ (length (br_fetched r) ≤ 1)%nat
  ∧ NoDup (rkey <$> reps [] keys)
  ∧ (∀ k, k ∈ keys → rkey k ∈ rkey <$> reps [] keys)
  ∧ (∀ k, k ∈ reps [] keys → findKey keyToString self keys (rkey k) = Some k)
  ∧ (∀ k, isUndefined (cached keyToString self now st k) = true
          ↔ Redis.get now st (rkey k) = None
            ∨ (Redis.get now st (rkey k) = Some NOT_FOUND_STRING
               ∧ isNullish (optCall (notFound (opts self)) k) = true)
            ∨ (∃ d, Redis.get now st (rkey k) = Some d ∧ d ≠ NOT_FOUND_STRING
                    ∧ redis_deserialize (opts self) k d = JUndefined)).
Proof.
  intros Hp r ms. subst r. rewrite overridedBatchLoad_unfold by done.
  cbn [br_fetched]. fold ms. unfold misses. fold ms.
  split_and!.
  - done.
  - destruct ms; simpl; lia.
  - apply representatives_NoDup.
  - intros k Hk.
    assert (rkey k ∈ rkey <$> keys) as Hin by by apply list_elem_of_fmap_2.
    apply (representatives_cover []) in Hin as [Hnil|Hin]; [|done].
    by apply not_elem_of_nil in Hnil.
  - intros k Hk. by apply (findKey_representative [] keys []).
  - apply cached_unresolved.
Qed.

(** C2 (amended).  Whatever the order in which the store replies arrive,
    the batch resolution returns one result per input position, the result
    at a position being the answer for the key at that position.  Two
    positions whose keys map to the same store key are answered from the
    same entry, and receive identical results when that entry holds a
    value that is neither null nor undefined, or when the not-found
    handler gives the same output for both keys (as it does for equal
    keys). *)
Theorem results_follow_input_positions
    (order1 order2 : list nat) (now : Z) (st : Redis.store) (keys : list K) :
  order1 ≡ₚ seq 0 (length (uniqueRedisKeys keyToString self keys)) →
  order2 ≡ₚ seq 0 (length (uniqueRedisKeys keyToString self keys)) →
  let r := overridedBatchLoad keyToString self order1 now st keys in
  overridedBatchLoad keyToString self order2 now st keys = r
  ∧ length (br_values r) = length keys
  ∧ (∀ i k, keys !! i = Some k →
            br_values r !! i = Some (answer keyToString self (br_map r) k))
  ∧ (∀ i j ki kj,
       keys !! i = Some ki → keys !! j = Some kj → rkey ki = rkey kj →
       findValue (br_map r) (rkey ki) = findValue (br_map r) (rkey kj)
       ∧ (isNullish (findValue (br_map r) (rkey ki)) = false
          ∨ optCall (notFound (opts self)) ki = optCall (notFound (opts self)) kj →
          br_values r !! i = br_values r !! j)).
Proof.
  intros Hp1 Hp2 r. subst r.
  rewrite !overridedBatchLoad_unfold by done. cbn [br_values br_map].
  split_and!.
  - done.
  - by rewrite length_fmap.
  - intros i k Hi. by rewrite list_lookup_fmap, Hi.
  - intros i j ki kj Hi Hj Hrk. split; [by rewrite Hrk|].
    intros Hsame. rewrite !list_lookup_fmap, Hi, Hj. simpl. f_equal.
    unfold answer. rewrite <- Hrk.
    destruct Hsame as [Hv| ->]; [|done].
    unfold coalesce at 2 4. by rewrite Hv.
Qed.

(** C10.  An input position whose resolution entry ends with null or
    undefined is answered with [notFound?.(key) ?? null]: with null when no
    handler is configured, and with the handler's output when one is (null
    standing in for an undefined output); the entry's own null is not what
    is returned. *)
Theorem nullish_entry_answered_by_notFound
    (order : list nat) (now : Z) (st : Redis.store) (keys : list K)
    (i : nat) (k : K) (e : entry) :
  order ≡ₚ seq 0 (length (uniqueRedisKeys keyToString self keys)) →
  let r := overridedBatchLoad keyToString self order now st keys in
  keys !! i = Some k →
  e ∈ br_map r → e_redisKey e = rkey k → isNullish (e_value e) = true →
  br_values r !! i = Some (coalesce (optCall (notFound (opts self)) k) JNull)
  ∧ (notFound (opts self) = None → br_values r !! i = Some JNull)
  ∧ (∀ h, notFound (opts self) = Some h → isUndefined (h k) = false →
          br_values r !! i = Some (h k)).
Proof.
  intros Hp r Hi He Hrk Hnull. subst r.
  rewrite overridedBatchLoad_unfold in * by done. cbn [br_values br_map] in *.
  set (es := fill 0 _ _) in *.
  assert (findValue es (rkey k) = e_value e) as Hfind.
  { rewrite <- Hrk. apply findValue_NoDup; [|done].
    unfold es. rewrite fill_redisKeys, readEntry_redisKeys.
    apply representatives_NoDup. }
  assert ((answer keyToString self es <$> keys) !! i
          = Some (coalesce (optCall (notFound (opts self)) k) JNull)) as Hans.
  { rewrite list_lookup_fmap, Hi. simpl. unfold answer. rewrite Hfind.
    unfold coalesce at 2. by rewrite Hnull. }
  split_and!; [done| |].
  - intros Hnone. rewrite Hans, Hnone. done.
  - intros h Hsome Hdef. rewrite Hans, Hsome. simpl. unfold coalesce.
    by destruct (h k).
Qed.

(** C3 (amended).  When the fallback fetch answers a key with undefined,
    with nothing at all, or with a not-found error, the sentinel is
    written under the key's store key, to expire after the negative TTL
    (30 when none is configured).  With a not-found handler configured
    whose output for the key is neither null nor undefined, a load of that
    key before the entry expires settles with the handler's output, leaves
    the store alone and does not call the fallback fetch.  With no
    handler, or one whose output for the key is null or undefined, the
    stored sentinel leaves the entry unresolved and such a load calls the
    fallback fetch again, with that key alone. *)
Theorem no_value_is_cached_negatively
    (order : list nat) (now : Z) (st : Redis.store) (keys ms : list K)
    (j : nat) (k : K) :
  order ≡ₚ seq 0 (length (uniqueRedisKeys keyToString self keys)) →
  let r := overridedBatchLoad keyToString self order now st keys in
  let v := nth j (underlyingBatchLoadFn self ms) JUndefined in
  br_fetched r = [ms] → ms !! j = Some k →
  isUndefined v || instanceofNotFoundError v = true →
  br_store r !! rkey k = Some (NOT_FOUND_STRING, now + ttlNotFoundOrDefault self)
  ∧ (redis_ttlNotFound (opts self) = None → ttlNotFoundOrDefault self = 30)
  ∧ (∀ t, redis_ttlNotFound (opts self) = Some t → ttlNotFoundOrDefault self = t)
  ∧ (∀ now' h,
       notFound (opts self) = Some h → isNullish (h k) = false →
       now' < now + ttlNotFoundOrDefault self →
       br_values (overridedBatchLoad keyToString self [0%nat] now' (br_store r) [k])
       = [h k]
       ∧ load keyToString self now' (br_store r) k
         = (if instanceofError (h k) then Rejected (h k) else Resolved (h k),
            br_store r, []))
  ∧ (∀ now',
       isNullish (optCall (notFound (opts self)) k) = true →
       now' < now + ttlNotFoundOrDefault self →
       (load keyToString self now' (br_store r) k).2 = [[k]]).
Proof.
  intros Hp r v Hf Hj Hv. subst r.
  rewrite overridedBatchLoad_unfold in * by done. cbn [br_fetched br_store] in *.
  assert (misses keyToString self now st keys = ms) as Hms.
  { destruct (misses keyToString self now st keys); [done|]. by injection Hf. }
  rewrite Hms. rewrite <- Hms in Hj.
  destruct (miss_slot _ _ _ _ _ Hj) as (_ & Hslot & Hu).
  set (st1 := flush _ _ _ _ _ _).
  assert (st1 !! rkey k
          = Some (NOT_FOUND_STRING, now + ttlNotFoundOrDefault self)) as Hst1.
  { unfold st1. rewrite flush_lookup
      by (rewrite readEntry_redisKeys; apply representatives_NoDup).
    rewrite Hslot. cbn [e_value]. rewrite Hu. fold v.
    unfold saved. rewrite Hv. unfold storeNotFoundError, Redis.set. simpl.
    by rewrite lookup_insert_eq. }
  split_and!; [done| | | |].
  - unfold ttlNotFoundOrDefault. by intros ->.
  - unfold ttlNotFoundOrDefault. by intros t ->.
  - intros now' h Hh Hdef Hnow.
    assert (cached keyToString self now' st1 k = h k) as Hc.
    { unfold cached, Redis.get. rewrite Hst1.
      rewrite bool_decide_eq_true_2 by done.
      rewrite bool_decide_eq_true_2 by done.
      rewrite Hh. simpl. unfold coalesce. by rewrite Hdef. }
    assert (isUndefined (h k) = false) as Hu' by by destruct (h k).
    assert (coalesce (coalesce (h k) (optCall (notFound (opts self)) k)) JNull
            = h k) as Hco.
    { unfold coalesce. by rewrite !Hdef. }
    split.
    + rewrite single_key_batch, Hc, Hu'. cbn [br_values]. by rewrite Hco.
    + rewrite load_cached; rewrite Hc; [|done]. by rewrite Hco.
  - intros now' Hnull Hnow.
    assert (cached keyToString self now' st1 k = JUndefined) as Hc.
    { unfold cached, Redis.get. rewrite Hst1.
      rewrite bool_decide_eq_true_2 by done.
      rewrite bool_decide_eq_true_2 by done.
      unfold coalesce. by rewrite Hnull. }
    unfold load. rewrite single_key_batch, Hc. done.
Qed.

(** C4 (amended).  Priming a key with a value that is neither an error nor
    null nor undefined, and loading the key before the positive TTL runs
    out, resolves with that value without calling the fallback fetch,
    provided the deserializer inverts the serializer on the value and the
    serialized value is not the sentinel.  Priming with an error writes
    nothing: the store is unchanged. *)
Theorem prime_then_load
    (now now' : Z) (st : Redis.store) (k : K) (v e : jsval V) :
  instanceofError v = false → isNullish v = false →
  redis_serialize (opts self) v ≠ NOT_FOUND_STRING →
  redis_deserialize (opts self) k (redis_serialize (opts self) v) = v →
  now' < now + redis_ttl (opts self) →
  instanceofError e = true →
  let st1 := (primeAsync keyToString self now k v st).2 in
  load keyToString self now' st1 k = (Resolved v, st1, [])
  ∧ primeAsync keyToString self now k e st = (false, st).
Proof.
  intros Hne Hdef Hsent Hinv Hnow He st1. split.
  - assert (cached keyToString self now' st1 k = v) as Hc.
    { unfold cached, Redis.get, st1, primeAsync, store, Redis.set.
      rewrite Hne. simpl. rewrite lookup_insert_eq.
      rewrite bool_decide_eq_true_2 by done.
      by rewrite bool_decide_eq_false_2. }
    assert (isUndefined v = false) as Hu by by destruct v.
    rewrite load_cached; rewrite Hc; [|done].
    unfold coalesce. by rewrite !Hdef, Hne.
  - unfold primeAsync. by rewrite He.
Qed.

(** C6.  [exist] answers from the store alone when the key is there: true
    for a value other than the sentinel, false for the sentinel, the store
    untouched and the fallback fetch not called.  When the key is absent
    it is [load(key)] that runs: [exist] resolves with whether the loaded
    value is not undefined, resolves with false when the load is rejected
    with a not-found error, and is rejected with any other error. *)
Theorem exist_probe_then_load (now : Z) (st : Redis.store) (k : K) :
  exist keyToString self now st k
  = match Redis.get now st (rkey k) with
    | Some d =>
        (Resolved (negb (bool_decide (d = NOT_FOUND_STRING))), st, [])
    | None =>
        let '(p, st', fetched) := load keyToString self now st k in
        (match p with
         | Resolved value => Resolved (negb (isUndefined value))
         | Rejected error =>
             if instanceofNotFoundError error then Resolved false
             else Rejected error
         end, st', fetched)
    end.
Proof.
  unfold exist, Redis.evalExist.
  destruct (Redis.get now st (rkey k)) as [d|]; [|done].
  by case_bool_decide.
Qed.

(** C7.  [loadCached] runs a batch resolution over all its keys, reads the
    store left by it, and returns the classification of the first key
    alone: the not-found handler's output or null for the sentinel, the
    deserialized string for any other stored string, null for an absent
    key.  The batch resolution populates the store: the keys it passes to
    the fallback fetch are the unresolved ones, one per store key, and for
    each of them the store then holds the sentinel under the negative TTL
    when the fetch had no value, the serialized value under the positive
    TTL when it had one, and what it held before when the fetch gave an
    error.  A first key that resolved from the store is classified from
    the entry the store already held; a first key that did not is the
    first one fetched and is classified from the entry just written. *)
Theorem loadCached_first_key
    (order : list nat) (now : Z) (st : Redis.store) (k : K) (ks : list K) :
  let r := overridedBatchLoad keyToString self order now st (k :: ks) in
  let res := loadCached keyToString self order now st (k :: ks) in
  res
  = (match Redis.get now (br_store r) (rkey k) with
     | Some d =>
         if bool_decide (d = NOT_FOUND_STRING) then
           match notFound (opts self) with
           | Some h => coalesce (h k) JNull
           | None => JNull
           end
         else redis_deserialize (opts self) k d
     | None => JNull
     end, br_store r, br_fetched r)
  ∧ (order ≡ₚ seq 0 (length (uniqueRedisKeys keyToString self (k :: ks))) →
     res.2 = match misses keyToString self now st (k :: ks) with
             | [] => []
             | ms => [ms]
             end
     ∧ (∀ ms j kj,
          res.2 = [ms] → ms !! j = Some kj →
          let v := nth j (underlyingBatchLoadFn self ms) JUndefined in
          res.1.2 !! rkey kj
          = if isUndefined v || instanceofNotFoundError v then
              Some (NOT_FOUND_STRING, now + ttlNotFoundOrDefault self)
            else if instanceofError v then st !! rkey kj
            else Some (redis_serialize (opts self) v, now + redis_ttl (opts self)))
     ∧ (isUndefined (cached keyToString self now st k) = false →
        res.1.2 !! rkey k = st !! rkey k
        ∧ res.1.1 = classifyCached self (Redis.get now st (rkey k)) k)
     ∧ (isUndefined (cached keyToString self now st k) = true →
        ∃ ms, res.2 = [ms] ∧ ms !! 0%nat = Some k
          ∧ (0 < redis_ttl (opts self) → 0 < ttlNotFoundOrDefault self →
             let v := nth 0 (underlyingBatchLoadFn self ms) JUndefined in
             res.1.1
             = if isUndefined v || instanceofNotFoundError v then
                 coalesce (optCall (notFound (opts self)) k) JNull
               else if instanceofError v then
                 classifyCached self (Redis.get now st (rkey k)) k
               else classifyCached self
                      (Some (redis_serialize (opts self) v)) k))).
Proof.
  intros r res.
  assert (res = (classifyCached self (Redis.get now (br_store r) (rkey k)) k,
                 br_store r, br_fetched r)) as Hres.
  { unfold res, loadCached. fold r. done. }
  split.
  { rewrite Hres. unfold classifyCached.
    destruct (Redis.get now (br_store r) (rkey k)) as [d|]; [|done].
    case_bool_decide; [|done]. by destruct (notFound (opts self)). }
  intros Hp. rewrite Hres. cbn [fst snd]. subst r.
  rewrite overridedBatchLoad_unfold by done. cbn [br_fetched br_store].
  set (ms := misses keyToString self now st (k :: ks)).
  set (es := readEntry now st <$> reps [] (k :: ks)).
  assert (NoDup (e_redisKey <$> es)) as Hnd.
  { unfold es. rewrite readEntry_redisKeys. apply representatives_NoDup. }
  split_and!.
  - by destruct ms.
  - intros ms' j kj Hf Hj.
    assert (ms = ms') as Hms by (destruct ms; [done|by injection Hf]).
    rewrite <- Hms in Hj. rewrite <- Hms.
    destruct (miss_slot now st (k :: ks) j kj Hj) as (_ & Hslot & Hu).
    rewrite flush_lookup by done. fold es in Hslot. rewrite Hslot.
    cbn [e_value]. rewrite Hu.
    unfold saved, storeNotFoundError, store, Redis.set. cbn [snd].
    destruct (isUndefined _ || instanceofNotFoundError _);
      [by rewrite lookup_insert_eq|].
    destruct (instanceofError _); simpl; [done|by rewrite lookup_insert_eq].
  - intros Hc.
    assert (flush self now 0 (underlyingBatchLoadFn self ms) es st !! rkey k
            = st !! rkey k) as Hst.
    { rewrite flush_lookup by done. unfold es. simpl.
      rewrite bool_decide_eq_true_2 by done. cbn [e_value]. by rewrite Hc. }
    split; [done|]. unfold Redis.get. by rewrite Hst.
  - intros Hc.
    assert (ms !! 0%nat = Some k) as Hm0.
    { unfold ms, misses. simpl. rewrite filter_cons, decide_True; done. }
    exists ms. split_and!; [by destruct ms|done|].
    intros Httl HttlNF.
    set (v := nth 0 (underlyingBatchLoadFn self ms) JUndefined).
    destruct (miss_slot now st (k :: ks) 0 k Hm0) as (_ & Hslot & Hu).
    unfold Redis.get at 1. rewrite flush_lookup by done.
    fold es in Hslot. rewrite Hslot. cbn [e_value]. rewrite Hu. fold ms v.
    unfold saved, storeNotFoundError, store, Redis.set. cbn [snd].
    destruct (isUndefined v || instanceofNotFoundError v).
    + rewrite lookup_insert_eq. rewrite bool_decide_eq_true_2 by lia.
      unfold classifyCached. by rewrite bool_decide_eq_true_2.
    + destruct (instanceofError v); simpl; [done|].
      rewrite lookup_insert_eq. by rewrite bool_decide_eq_true_2 by lia.
Qed.

End LoaderFacts.

(** ** An error of the fallback fetch *)

Section FallbackErrors.

Context {K V : Type}.
Variable keyToString : K → string.
Variable self : RedisDataLoader (K:=K) (V:=V).

Local Abbreviation rkey := (redisKey keyToString self).

(** C5.  When the fallback fetch answers a key with an error that is not a
    not-found error, nothing is written under that key's store key, every
    input position of that store key receives the error, and the other
    positions and the other store keys are what they would be had the
    fallback fetch answered that key with anything else. *)
Theorem fallback_error_stays_with_its_key
    (order : list nat) (now : Z) (st : Redis.store) (keys ms : list K)
    (j : nat) (k : K) (msg : string) :
  order ≡ₚ seq 0 (length (uniqueRedisKeys keyToString self keys)) →
  let r := overridedBatchLoad keyToString self order now st keys in
  br_fetched r = [ms] → ms !! j = Some k →
  nth j (underlyingBatchLoadFn self ms) JUndefined = JError msg →
  br_store r !! rkey k = st !! rkey k
  ∧ (∀ i ki, keys !! i = Some ki → rkey ki = rkey k →
             br_values r !! i = Some (JError msg))
  ∧ (∀ fn',
       (∀ j', j' ≠ j →
              nth j' (fn' ms) JUndefined
              = nth j' (underlyingBatchLoadFn self ms) JUndefined) →
       let self' := {| name := name self; underlyingBatchLoadFn := fn';
                       opts := opts self |} in
       let r' := overridedBatchLoad keyToString self' order now st keys in
       (∀ i ki, keys !! i = Some ki → rkey ki ≠ rkey k →
                br_values r' !! i = br_values r !! i)
       ∧ (∀ rk, rk ≠ rkey k → br_store r' !! rk = br_store r !! rk)).
Proof.
  intros Hp r Hf Hj Hv. subst r.
  rewrite overridedBatchLoad_unfold in * by done. cbn [br_fetched br_store br_values] in *.
  assert (misses keyToString self now st keys = ms) as Hms.
  { destruct (misses keyToString self now st keys); [done|]. by injection Hf. }
  rewrite Hms. rewrite <- Hms in Hj.
  destruct (miss_slot keyToString self now st keys j k Hj)
    as (Hfilter & Hslot & Hu).
  set (es := _ <$> representatives keyToString self [] keys) in *.
  assert (NoDup (e_redisKey <$> es)) as Hnd.
  { unfold es. rewrite readEntry_redisKeys. apply representatives_NoDup. }
  split_and!.
  - rewrite flush_lookup by done. rewrite Hslot. cbn [e_value]. rewrite Hu, Hv.
    done.
  - intros i ki Hi Hrk. rewrite list_lookup_fmap, Hi. simpl. f_equal.
    unfold answer. rewrite findValue_fill, Hrk, Hslot. cbn [e_value].
    by rewrite Hu, Hv.
  - intros fn' Hfn'.
    set (self' := {| name := name self; underlyingBatchLoadFn := fn';
                     opts := opts self |}).
    rewrite (overridedBatchLoad_unfold keyToString self') by done.
    cbn [br_values br_store].
    change (misses keyToString self' now st keys)
      with (misses keyToString self now st keys).
    rewrite Hms. cbn [underlyingBatchLoadFn self'].
    split.
    + intros i ki Hi Hrk. rewrite !list_lookup_fmap, Hi. simpl. f_equal.
      unfold answer.
      change (redisKey keyToString self' ki) with (rkey ki).
      change (notFound (opts self')) with (notFound (opts self)).
      f_equal. f_equal. by apply (fill_agree _ _ es j _ _ Hfn' Hfilter).
    + intros rk Hrk.
      by apply (flush_agree self now _ _ es st j _ _ Hnd Hfn' Hfilter).
Qed.

End FallbackErrors.

(** ** The store under deletion *)

Lemma get_visible (now : Z) (st : Redis.store) (k : string) :
  Redis.get now st k = fst <$> visible now st !! k.
Proof.
  unfold Redis.get, visible. rewrite map_lookup_filter.
  destruct (st !! k) as [[v expires]|]; simpl; [|done].
  case_bool_decide.
  - by rewrite option_guard_True.
  - by rewrite option_guard_False.
Qed.

Lemma visible_delete (now : Z) (st : Redis.store) (k : string) :
  visible now (delete k st) = delete k (visible now st).
Proof. apply map_filter_delete. Qed.

Lemma del_visible (now : Z) (st : Redis.store) (k : string) :
  (Redis.del now k st).1
  = Z.of_nat (size (visible now st)) - Z.of_nat (size (visible now (Redis.del now k st).2)).
Proof.
  unfold Redis.del. cbn [fst snd]. rewrite get_visible.
  rewrite visible_delete, map_size_delete.
  destruct (visible now st !! k) as [x|] eqn:Hk; simpl; [|lia].
  assert (size (visible now st) ≠ 0%nat); [|lia].
  intros Hz. apply map_size_empty_inv in Hz. by rewrite Hz in Hk.
Qed.

Lemma foldl_Zadd (a : Z) (l : list Z) : foldl Z.add a l = a + foldl Z.add 0 l.
Proof.
  revert a. induction l as [|x l IH]; intros a; simpl; [lia|].
  rewrite (IH (a + x)), (IH (0 + x)). lia.
Qed.

Section Clearing.

Context {K V : Type}.
Variable keyToString : K → string.
Variable self : RedisDataLoader (K:=K) (V:=V).

Local Abbreviation rkey := (redisKey keyToString self).

Lemma del_fold (now : Z) (keys : list K) (acc : list Z) (st : Redis.store) :
  ∃ res st',
    foldl (fun (a : list Z * Redis.store) key =>
             let '(n, s) := Redis.del now (rkey key) a.2 in (a.1 ++ [n], s))
          (acc, st) keys = (acc ++ res, st')
    ∧ (∀ rk, st' !! rk = if decide (rk ∈ rkey <$> keys) then None else st !! rk)
    ∧ foldl Z.add 0 res
      = Z.of_nat (size (visible now st)) - Z.of_nat (size (visible now st')).
Proof.
  revert acc st. induction keys as [|k ks IH]; intros acc st.
  { exists [], st. rewrite app_nil_r. split_and!; [done|done|simpl; lia]. }
  destruct (IH (acc ++ [(Redis.del now (rkey k) st).1]) (Redis.del now (rkey k) st).2)
    as (res & st' & Hfold & Hlook & Hsum).
  exists ((Redis.del now (rkey k) st).1 :: res), st'. split_and!.
  - simpl. simpl in Hfold. rewrite Hfold. by rewrite <- app_assoc.
  - intros rk. rewrite Hlook. rewrite fmap_cons. simpl.
    destruct (decide (rk = rkey k)) as [->|Hne].
    + rewrite (decide_True (P := rkey k ∈ rkey k :: _)) by left.
      case_decide; [done|]. by rewrite lookup_delete_eq.
    + rewrite lookup_delete_ne by done.
      case_decide as Hin.
      * rewrite decide_True; [done|by right].
      * rewrite decide_False; [done|].
        intros Hin'. apply elem_of_cons in Hin' as [?|?]; done.
  - simpl. rewrite foldl_Zadd, Hsum. rewrite (del_visible now st (rkey k)) at 1.
    lia.
Qed.

(** C8.  [clearAsync] with no key is rejected and leaves the store alone.
    With one key or more it removes every store key of the given keys and
    no other, and resolves with the number of entries that left the store:
    the visible entries before the call less those after. *)
Theorem clearAsync_removes_and_counts
    (now : Z) (st : Redis.store) (k : K) (ks : list K) :
  clearAsync keyToString self now [] st
  = (Rejected (JError "Empty array passed"), st)
  ∧ ∃ n st',
      clearAsync keyToString self now (k :: ks) st = (Resolved n, st')
      ∧ (∀ rk, st' !! rk
               = if decide (rk ∈ rkey <$> k :: ks) then None else st !! rk)
      ∧ (∀ rk, Redis.get now st' rk
               = if decide (rk ∈ rkey <$> k :: ks) then None
                 else Redis.get now st rk)
      ∧ n = Z.of_nat (size (visible now st)) - Z.of_nat (size (visible now st')).
Proof.
  split; [done|].
  destruct (del_fold now (k :: ks) [] st) as (res & st' & Hfold & Hlook & Hsum).
  exists (foldl Z.add 0 res), st'. split_and!; [|done| |done].
  - unfold clearAsync. by rewrite Hfold.
  - intros rk. unfold Redis.get. rewrite Hlook. by case_decide.
Qed.

End Clearing.

(** ** The name registry *)

(** C9.  With the duplicate check on, constructing a loader whose suffixed
    name is already registered fails and registers nothing; with the check
    off construction succeeds whatever the name.  A successful
    construction registers the suffixed name. *)
Theorem duplicate_name_is_rejected {K V : Type}
    (nm : string) (fn : list K → list (jsval V)) (o : options) (g : statics) :
  (checkForDuplicates g = true → suffixedName nm o ∈ usedNames g →
   construct nm fn o g
   = (inl ("RedisDataLoader name " +:+ suffixedName nm o +:+ " already used"), g))
  ∧ (checkForDuplicates g = false ∨ suffixedName nm o ∉ usedNames g →
     ∃ ld g',
       construct nm fn o g = (inr ld, g')
       ∧ name ld = suffixedName nm o
       ∧ checkForDuplicates g' = checkForDuplicates g
       ∧ usedNames g' = {[ suffixedName nm o ]} ∪ usedNames g).
Proof.
  unfold construct. split.
  - intros -> Hin. by rewrite bool_decide_eq_true_2.
  - intros Hok.
    assert (checkForDuplicates g && bool_decide (suffixedName nm o ∈ usedNames g)
            = false) as ->.
    { destruct Hok as [-> | Hnot]; [done|].
      rewrite bool_decide_eq_false_2 by done. apply andb_false_r. }
    eexists _, _. split; [done|]. by split_and!.
Qed.

(** ** Worked instances *)

(** C1, an instance: two loads of [a] and one of [b] on an empty store
    make one fetch of [a; b]. *)
Lemma fallback_called_once_witness :
  [1; 0]%nat
  ≡ₚ seq 0 (length (uniqueRedisKeys id (Demo.ld Demo.withHandler) ["a"; "a"; "b"]))
  ∧ br_fetched (overridedBatchLoad id (Demo.ld Demo.withHandler) [1; 0]%nat 0 ∅
                  ["a"; "a"; "b"])
    = [["a"; "b"]].
Proof.
  assert ([1; 0]%nat
          ≡ₚ seq 0 (length (uniqueRedisKeys id (Demo.ld Demo.withHandler)
                              ["a"; "a"; "b"]))) as Hp.
  { vm_compute. apply perm_swap. }
  split; [exact Hp|].
  destruct (fallback_called_once_with_unresolved_keys
              id (Demo.ld Demo.withHandler) [1; 0]%nat 0 ∅ ["a"; "a"; "b"] Hp)
    as [H _].
  rewrite H. vm_compute. reflexivity.
Defined.

(** C1 as stated fails: with no not-found handler, a key that the store
    holds (as the sentinel) is passed to the fallback fetch. *)
Lemma stored_sentinel_is_fetched_again :
  Redis.get 0 Demo.negative (redisKey id (Demo.ld Demo.plain) "b")
  = Some NOT_FOUND_STRING
  ∧ br_fetched (overridedBatchLoad id (Demo.ld Demo.plain) [0%nat] 0
                  Demo.negative ["b"])
    = [["b"]].
Proof. split; vm_compute; reflexivity. Qed.

(** C2, an instance: the replies arriving in either order, the three
    positions get their three results, the two loads of [a] the same one. *)
Lemma results_follow_input_positions_witness :
  [1; 0]%nat
  ≡ₚ seq 0 (length (uniqueRedisKeys id (Demo.ld Demo.withHandler) ["a"; "a"; "b"]))
  ∧ overridedBatchLoad id (Demo.ld Demo.withHandler) [0; 1]%nat 0 ∅ ["a"; "a"; "b"]
    = overridedBatchLoad id (Demo.ld Demo.withHandler) [1; 0]%nat 0 ∅ ["a"; "a"; "b"]
  ∧ length (br_values (overridedBatchLoad id (Demo.ld Demo.withHandler)
                         [1; 0]%nat 0 ∅ ["a"; "a"; "b"]))
    = 3%nat.
Proof.
  assert ([1; 0]%nat
          ≡ₚ seq 0 (length (uniqueRedisKeys id (Demo.ld Demo.withHandler)
                              ["a"; "a"; "b"]))) as Hp1.
  { vm_compute. apply perm_swap. }
  assert ([0; 1]%nat
          ≡ₚ seq 0 (length (uniqueRedisKeys id (Demo.ld Demo.withHandler)
                              ["a"; "a"; "b"]))) as Hp2.
  { vm_compute. reflexivity. }
  destruct (results_follow_input_positions
              id (Demo.ld Demo.withHandler) [1; 0]%nat [0; 1]%nat 0 ∅
              ["a"; "a"; "b"] Hp1 Hp2) as (Heq & Hlen & _).
  split; [exact Hp1|]. split; [exact Heq|exact Hlen].
Defined.

(** C2 as stated fails: [A] and [a] map to the same store key, neither
    has a value, and each position gets the not-found handler's output for
    its own key. *)
Lemma same_store_key_different_results :
  redisKey id (Demo.ld Demo.folding) "A" = redisKey id (Demo.ld Demo.folding) "a"
  ∧ br_values (overridedBatchLoad id (Demo.ld Demo.folding) [0%nat] 0 ∅ ["A"; "a"])
    = [JNotFoundError "no A"; JNotFoundError "no a"].
Proof. split; vm_compute; reflexivity. Qed.

(** C3, an instance: [b] has no value; the sentinel is stored for 10 time
    units and a load at instant 5 is rejected with the handler's
    not-found error, with no fetch. *)
Lemma no_value_is_cached_negatively_witness :
  let r := overridedBatchLoad id (Demo.ld Demo.withHandler) [0; 1]%nat 0 ∅
             ["a"; "b"] in
  br_store r !! "n:b" = Some (NOT_FOUND_STRING, 10)
  ∧ load id (Demo.ld Demo.withHandler) 5 (br_store r) "b"
    = (Rejected (JNotFoundError "no b"), br_store r, []).
Proof.
  intros r.
  assert ([0; 1]%nat
          ≡ₚ seq 0 (length (uniqueRedisKeys id (Demo.ld Demo.withHandler)
                              ["a"; "b"]))) as Hp.
  { vm_compute. reflexivity. }
  destruct (no_value_is_cached_negatively
              id (Demo.ld Demo.withHandler) [0; 1]%nat 0 ∅ ["a"; "b"] ["a"; "b"]
              1%nat "b" Hp) as (Hst & _ & _ & Hload & _).
  { vm_compute. reflexivity. }
  { reflexivity. }
  { vm_compute. reflexivity. }
  split; [exact Hst|].
  destruct (Hload 5 (fun k => JNotFoundError ("no " +:+ k))) as [_ H].
  { reflexivity. }
  { reflexivity. }
  { vm_compute. reflexivity. }
  exact H.
Defined.

(** C3 as stated fails: the fallback fetch has no value for [b], the
    sentinel is stored for 10 time units, the handler is configured, and
    yet a load at instant 5 calls the fallback fetch again, because the
    handler's output is null. *)
Lemma null_handler_is_fetched_again :
  let r := overridedBatchLoad id (Demo.ld Demo.nullHandler) [0%nat] 0 ∅ ["b"] in
  br_fetched r = [["b"]]
  ∧ nth 0 (Demo.source ["b"]) JUndefined = JUndefined
  ∧ Redis.get 5 (br_store r) (redisKey id (Demo.ld Demo.nullHandler) "b")
    = Some NOT_FOUND_STRING
  ∧ (load id (Demo.ld Demo.nullHandler) 5 (br_store r) "b").2 = [["b"]].
Proof. split_and!; vm_compute; reflexivity. Qed.

(** C4, an instance: [X] primed under [a] at instant 0 is loaded at
    instant 59; priming an error writes nothing. *)
Lemma prime_then_load_witness :
  let st1 := (primeAsync id (Demo.ld Demo.plain) 0 "a" (JValue "X") ∅).2 in
  load id (Demo.ld Demo.plain) 59 st1 "a" = (Resolved (JValue "X"), st1, [])
  ∧ primeAsync id (Demo.ld Demo.plain) 0 "a" (JError "boom") ∅ = (false, ∅).
Proof.
  apply (prime_then_load id (Demo.ld Demo.plain) 0 59 ∅ "a"
           (JValue "X") (JError "boom")).
  - reflexivity.
  - reflexivity.
  - vm_compute. discriminate.
  - vm_compute. reflexivity.
  - vm_compute. reflexivity.
  - reflexivity.
Defined.

(** C4 as stated fails: null is not an error, the deserializer inverts the
    serializer on it, and yet a load after priming null is settled with
    the not-found handler's output. *)
Lemma primed_null_is_not_returned :
  let st1 := (primeAsync id (Demo.ld Demo.withHandler) 0 "a" JNull ∅).2 in
  instanceofError (JNull : jsval string) = false
  ∧ Demo.deser "a" (Demo.ser JNull) = JNull
  ∧ load id (Demo.ld Demo.withHandler) 0 st1 "a"
    = (Rejected (JNotFoundError "no a"), st1, []).
Proof. split_and!; vm_compute; reflexivity. Qed.

(** C5, an instance: the fetch fails for [e] alone; nothing is stored
    under it and its position carries the error. *)
Lemma fallback_error_stays_with_its_key_witness :
  let r := overridedBatchLoad id (Demo.ld Demo.plain) [0; 1]%nat 0 ∅ ["a"; "e"] in
  br_store r !! "n:e" = None
  ∧ br_values r !! 1%nat = Some (JError "boom").
Proof.
  intros r.
  assert ([0; 1]%nat
          ≡ₚ seq 0 (length (uniqueRedisKeys id (Demo.ld Demo.plain) ["a"; "e"])))
    as Hp.
  { vm_compute. reflexivity. }
  destruct (fallback_error_stays_with_its_key
              id (Demo.ld Demo.plain) [0; 1]%nat 0 ∅ ["a"; "e"] ["a"; "e"]
              1%nat "e" "boom" Hp) as (Hst & Hval & _).
  { vm_compute. reflexivity. }
  { reflexivity. }
  { vm_compute. reflexivity. }
  split; [exact Hst|].
  apply (Hval 1%nat "e"); reflexivity.
Defined.

(** C7, an instance: neither [a] nor [b] is in the store; both are
    fetched, the value of [a] and the sentinel for [b] are written, and
    the answer is the value of [a] read back from the store. *)
Lemma loadCached_first_key_witness :
  let res := loadCached id (Demo.ld Demo.withHandler) [0; 1]%nat 0 ∅ ["a"; "b"] in
  res.2 = [["a"; "b"]]
  ∧ res.1.2 !! "n:a" = Some ("v:X", 60)
  ∧ res.1.2 !! "n:b" = Some (NOT_FOUND_STRING, 10)
  ∧ res.1.1 = JValue "X".
Proof.
  intros res.
  assert ([0; 1]%nat
          ≡ₚ seq 0 (length (uniqueRedisKeys id (Demo.ld Demo.withHandler)
                              ["a"; "b"]))) as Hp.
  { vm_compute. reflexivity. }
  destruct (loadCached_first_key
              id (Demo.ld Demo.withHandler) [0; 1]%nat 0 ∅ "a" ["b"])
    as [_ H].
  destruct (H Hp) as (Hf & Hst & _ & Hmiss).
  fold res in Hf, Hst, Hmiss.
  assert (res.2 = [["a"; "b"]]) as Hf' by exact Hf.
  split; [exact Hf'|].
  split; [exact (Hst ["a"; "b"] 0%nat "a" Hf' eq_refl)|].
  split; [exact (Hst ["a"; "b"] 1%nat "b" Hf' eq_refl)|].
  destruct Hmiss as (ms & Hms & _ & Hans).
  { reflexivity. }
  rewrite Hans.
  - rewrite Hf' in Hms. injection Hms as <-. vm_compute. reflexivity.
  - reflexivity.
  - reflexivity.
Defined.

(** C9, an instance: the name [n] is taken. *)
Lemma duplicate_name_is_rejected_witness :
  construct "n" Demo.source Demo.plain Demo.registry
  = (inl "RedisDataLoader name n already used", Demo.registry).
Proof.
  destruct (duplicate_name_is_rejected "n" Demo.source Demo.plain Demo.registry)
    as [H _].
  rewrite H.
  - vm_compute. reflexivity.
  - reflexivity.
  - vm_compute. reflexivity.
Defined.

(** C10, an instance: the entry of [b] ends undefined and its position is
    answered with the handler's output. *)
Lemma nullish_entry_answered_by_notFound_witness :
  br_values (overridedBatchLoad id (Demo.ld Demo.withHandler) [0%nat] 0 ∅ ["b"])
    !! 0%nat
  = Some (JNotFoundError "no b").
Proof.
  destruct (nullish_entry_answered_by_notFound
              id (Demo.ld Demo.withHandler) [0%nat] 0 ∅ ["b"] 0%nat "b"
              {| e_redisKey := "n:b"; e_key := "b"; e_value := JUndefined |})
    as (_ & _ & H).
  - vm_compute. reflexivity.
  - reflexivity.
  - vm_compute. left.
  - reflexivity.
  - reflexivity.
  - apply (H (fun k => JNotFoundError ("no " +:+ k))); reflexivity.
Defined.

(** * Further properties of the loader *)

(** ** Store keys *)

Lemma colon_split (n1 n2 a b : string) :
  (∀ x y, n1 ≠ x +:+ ":" +:+ y) → (∀ x y, n2 ≠ x +:+ ":" +:+ y) →
  n1 +:+ ":" +:+ a = n2 +:+ ":" +:+ b → n1 = n2 ∧ a = b.
Proof.
  revert n2. induction n1 as [|c n1 IH]; intros [|c' n2] H1 H2 Heq;
    simpl in Heq.
  - split; [done|]. by injection Heq.
  - injection Heq as <- _. exfalso. by apply (H2 EmptyString n2).
  - injection Heq as -> _. exfalso. by apply (H1 EmptyString n1).
  - injection Heq as <- Heq. destruct (IH n2) as [-> ->]; [| |done|done].
    + intros x y ->. by apply (H1 (String c x) y).
    + intros x y ->. by apply (H2 (String c x) y).
Qed.

Lemma hasColon_false (n : string) :
  hasColon n = false → ∀ x y, n ≠ x +:+ ":" +:+ y.
Proof.
  intros Hn x. revert n Hn. induction x as [|c x IH]; intros n Hn y ->.
  - by simpl in Hn.
  - simpl in Hn. apply orb_false_iff in Hn as [_ Hn]. by apply (IH _ Hn y).
Qed.

Section StoreKeys.

Context {K V : Type}.
Variable keyToString : K → string.

(** X1.  Within one loader two keys share a store key exactly when the key
    function (or, without one, their printed form) gives the same string. *)
Theorem redisKey_same_iff (self : RedisDataLoader (K:=K) (V:=V)) (k1 k2 : K) :
  redisKey keyToString self k1 = redisKey keyToString self k2
  ↔ match cacheKeyFn (opts self) with
    | Some f => f k1 = f k2
    | None => keyToString k1 = keyToString k2
    end.
Proof.
  unfold redisKey. destruct (cacheKeyFn (opts self)) as [f|]; split.
  - intros Heq. apply String.app_inj in Heq. by injection Heq.
  - by intros ->.
  - intros Heq. apply String.app_inj in Heq. by injection Heq.
  - by intros ->.
Qed.

(** X2.  Loaders whose names hold no colon never share a store key unless they
    have the same name. *)
Theorem redisKey_namespaces_disjoint
    (self1 self2 : RedisDataLoader (K:=K) (V:=V)) (k1 k2 : K) :
  hasColon (name self1) = false → hasColon (name self2) = false →
  redisKey keyToString self1 k1 = redisKey keyToString self2 k2 →
  name self1 = name self2.
Proof.
  intros H1 H2 Heq. unfold redisKey in Heq.
  by destruct (colon_split _ _ _ _ (hasColon_false _ H1) (hasColon_false _ H2) Heq).
Qed.

End StoreKeys.

(** ** Loads, expiry and clearing *)

Lemma coalesce_null_defined {V} (x : jsval V) :
  isUndefined (coalesce x JNull) = false.
Proof. by destruct x. Qed.

Section MoreLoader.

Context {K V : Type}.
Variable keyToString : K → string.
Variable self : RedisDataLoader (K:=K) (V:=V).

Local Abbreviation rkey := (redisKey keyToString self).
Local Abbreviation reps := (representatives keyToString self).
Local Abbreviation readEntry now st :=
  (fun k => {| e_redisKey := rkey k; e_key := k;
               e_value := cached keyToString self now st k |}).

(** A load of a key that the store does not hold. *)
Lemma load_absent (now : Z) (st : Redis.store) (k : K) :
  Redis.get now st (rkey k) = None →
  let v := nth 0 (underlyingBatchLoadFn self [k]) JUndefined in
  let a := coalesce (coalesce v (optCall (notFound (opts self)) k)) JNull in
  load keyToString self now st k
  = (if instanceofError a then Rejected a else Resolved a,
     saved self now v (rkey k) st, [[k]]).
Proof.
  intros Hget v a. unfold load. rewrite single_key_batch.
  unfold cached. rewrite Hget. done.
Qed.

(** X3.  Whatever the order in which the replies are handled, and even if some
    reply were handled twice or never, the batch resolution returns one
    slot per input key and no slot is undefined. *)
Theorem batch_slots_never_undefined
    (order : list nat) (now : Z) (st : Redis.store) (keys : list K) (i : nat) :
  let r := overridedBatchLoad keyToString self order now st keys in
  length (br_values r) = length keys
  ∧ br_values r !! i ≠ Some JUndefined.
Proof.
  unfold overridedBatchLoad.
  destruct (bool_decide _); [destruct (foldl _ _ _) as [m s]|];
    cbn [br_values]; (split; [by rewrite length_fmap|]);
    rewrite list_lookup_fmap; destruct (keys !! i) as [k|]; simpl; try done;
    intros [= Hu]; unfold answer in Hu;
    apply (f_equal isUndefined) in Hu;
    by rewrite coalesce_null_defined in Hu.
Qed.

(** X4.  For a key that the store does not hold, [exist] resolves with true
    whenever the load resolves, whatever value it resolves with: a load
    never resolves with undefined. *)
Theorem exist_absent_key (now : Z) (st : Redis.store) (k : K) :
  Redis.get now st (rkey k) = None →
  let l := load keyToString self now st k in
  exist keyToString self now st k
  = (match l.1.1 with
     | Resolved _ => Resolved true
     | Rejected e => if instanceofNotFoundError e then Resolved false
                     else Rejected e
     end, l.1.2, l.2).
Proof.
  intros Hget l. subst l. unfold exist, Redis.evalExist. rewrite Hget.
  rewrite load_absent by done. cbn [fst snd].
  set (a := coalesce _ JNull).
  pose proof (coalesce_null_defined
                (coalesce (nth 0 (underlyingBatchLoadFn self [k]) JUndefined)
                          (optCall (notFound (opts self)) k))) as Hd.
  fold a in Hd. destruct (instanceofError a); [done|]. by rewrite Hd.
Qed.

(** X5.  With no not-found handler, a key that neither the store nor the
    fallback fetch has is reported as existing by a first [exist], which
    caches the sentinel, and as missing by a second one made before the
    sentinel expires. *)
Theorem exist_true_then_false (now now' : Z) (st : Redis.store) (k : K) :
  notFound (opts self) = None →
  Redis.get now st (rkey k) = None →
  isUndefined (nth 0 (underlyingBatchLoadFn self [k]) JUndefined) = true →
  now' < now + ttlNotFoundOrDefault self →
  let e1 := exist keyToString self now st k in
  e1 = (Resolved true, (storeNotFoundError self now (rkey k) st).2, [[k]])
  ∧ exist keyToString self now' e1.1.2 k = (Resolved false, e1.1.2, []).
Proof.
  intros Hnf Hget Hu Hnow e1.
  assert (e1 = (Resolved true, (storeNotFoundError self now (rkey k) st).2, [[k]]))
    as He1.
  { unfold e1, exist, Redis.evalExist. rewrite Hget, load_absent by done.
    unfold saved. rewrite Hu, Hnf. simpl.
    destruct (nth 0 (underlyingBatchLoadFn self [k]) JUndefined); done. }
  split; [done|]. rewrite He1. cbn [fst snd].
  unfold exist, Redis.evalExist, Redis.get, storeNotFoundError, Redis.set.
  cbn [snd]. rewrite lookup_insert_eq.
  rewrite bool_decide_eq_true_2 by done. by rewrite bool_decide_eq_true_2.
Qed.

(** X6.  A value primed under a key is gone once the positive TTL has run out:
    a load made then calls the fallback fetch with that key alone. *)
Theorem load_after_expiry_fetches
    (now now' : Z) (st : Redis.store) (k : K) (v : jsval V) :
  instanceofError v = false →
  now + redis_ttl (opts self) ≤ now' →
  (load keyToString self now' (prime keyToString self now k v st) k).2 = [[k]].
Proof.
  intros Hv Hnow. rewrite load_absent; [done|].
  unfold prime, primeAsync, store, Redis.get, Redis.set. rewrite Hv. simpl.
  rewrite lookup_insert_eq. by rewrite bool_decide_eq_false_2 by lia.
Qed.

(** X7.  After [clearAsync] of some keys, and after the deprecated [clear] of
    one, the store holds none of them and a load of any of them calls the
    fallback fetch with that key alone. *)
Theorem load_after_clear_fetches
    (now now' : Z) (st : Redis.store) (k k' : K) (ks : list K) :
  k' ∈ k :: ks →
  let st1 := (clearAsync keyToString self now (k :: ks) st).2 in
  Redis.get now' st1 (rkey k') = None
  ∧ (load keyToString self now' st1 k').2 = [[k']]
  ∧ Redis.get now' (clear keyToString self now k st) (rkey k) = None
  ∧ (load keyToString self now' (clear keyToString self now k st) k).2 = [[k]].
Proof.
  intros Hin st1.
  assert (∀ l x, x ∈ l → l ≠ [] →
            Redis.get now' (clearAsync keyToString self now l st).2 (rkey x) = None)
    as Hgone.
  { intros l x Hx Hl. unfold clearAsync. destruct l as [|y l]; [done|].
    destruct (del_fold keyToString self now (y :: l) [] st)
      as (res & st' & Hfold & Hlook & _).
    rewrite Hfold. cbn [snd]. unfold Redis.get. rewrite Hlook.
    rewrite decide_True; [done|]. by apply list_elem_of_fmap_2. }
  assert (Redis.get now' st1 (rkey k') = None) as H1 by by apply Hgone.
  assert (Redis.get now' (clear keyToString self now k st) (rkey k) = None) as H2.
  { unfold clear. apply Hgone; [left|done]. }
  split_and!; [done| |done|]; by rewrite load_absent.
Qed.

End MoreLoader.

(** ** What a batch resolution writes *)

Section BatchWrites.

Context {K V : Type}.
Variable keyToString : K → string.
Variable self : RedisDataLoader (K:=K) (V:=V).

Local Abbreviation rkey := (redisKey keyToString self).
Local Abbreviation reps := (representatives keyToString self).
Local Abbreviation readEntry now st :=
  (fun k => {| e_redisKey := rkey k; e_key := k;
               e_value := cached keyToString self now st k |}).

Lemma entries_NoDup (now : Z) (st : Redis.store) (keys : list K) :
  NoDup (e_redisKey <$> (readEntry now st <$> reps [] keys)).
Proof. rewrite readEntry_redisKeys. apply representatives_NoDup. Qed.

Lemma saved_is_Some (now : Z) (v : jsval V) (rk rk' : string) (st : Redis.store) :
  is_Some (st !! rk') → is_Some (saved self now v rk st !! rk').
Proof.
  intros Hs. unfold saved, storeNotFoundError, store, Redis.set. simpl.
  destruct (isUndefined v || instanceofNotFoundError v);
    [|destruct (negb (instanceofError v))]; [| |done];
    (destruct (decide (rk = rk')) as [->|Hne];
     [rewrite lookup_insert_eq; eauto|by rewrite lookup_insert_ne]).
Qed.

Lemma flush_is_Some (now : Z) (n : nat) (rs : list (jsval V))
    (es : list entry) (st : Redis.store) (rk : string) :
  is_Some (st !! rk) → is_Some (flush self now n rs es st !! rk).
Proof.
  revert n st. induction es as [|e es IH]; intros n st Hs; [done|].
  simpl. destruct (isUndefined (e_value e)); apply IH; [|done].
  by apply saved_is_Some.
Qed.

(** X8.  A batch resolution writes under the store keys of the keys it passes
    to the fallback fetch and nowhere else, and it removes nothing; when
    every key resolves from the store, the store is left as it was. *)
Theorem batch_store_frame
    (order : list nat) (now : Z) (st : Redis.store) (keys : list K) :
  order ≡ₚ seq 0 (length (uniqueRedisKeys keyToString self keys)) →
  let r := overridedBatchLoad keyToString self order now st keys in
  (∀ rk, (∀ args, args ∈ br_fetched r → rk ∉ rkey <$> args) →
         br_store r !! rk = st !! rk)
  ∧ (∀ rk, is_Some (st !! rk) → is_Some (br_store r !! rk))
  ∧ (br_fetched r = [] → br_store r = st).
Proof.
  intros Hp r. subst r. rewrite overridedBatchLoad_unfold by done.
  cbn [br_fetched br_store].
  set (ms := misses keyToString self now st keys).
  set (es := readEntry now st <$> reps [] keys).
  split_and!.
  - intros rk Hnot.
    rewrite flush_lookup by apply entries_NoDup.
    destruct (findSlot 0 es rk) as [[m e]|] eqn:Hs; [|done].
    destruct (isUndefined (e_value e)) eqn:Hu; [|done].
    exfalso. destruct (findSlot_index _ _ _ _ _ Hs Hu) as (j & _ & Hj).
    assert (ms !! j = Some (e_key e)) as Hm.
    { unfold ms. rewrite <- misses_entries, list_lookup_fmap. fold es.
      by rewrite Hj. }
    assert (rk = rkey (e_key e)) as ->.
    { apply findSlot_redisKey in Hs as <-.
      apply list_elem_of_lookup_2, list_elem_of_filter in Hj as [_ Hin].
      by apply list_elem_of_fmap in Hin as (k & -> & _). }
    apply (Hnot ms).
    + destruct ms; [done|]. left.
    + apply list_elem_of_fmap_2. by eapply list_elem_of_lookup_2.
  - intros rk. apply flush_is_Some.
  - intros Hnone. assert (ms = []) as Hms by by destruct ms.
    apply flush_resolved.
    apply fmap_nil_inv with (f := e_key).
    pose proof (misses_entries keyToString self now st keys) as Hme.
    fold ms in Hme. by rewrite Hms in Hme.
Qed.


(** X10.  With no key at all a batch resolution returns no slot, calls nothing
    and writes nothing, and [loadCached] returns undefined. *)
Theorem no_key_no_effect (order : list nat) (now : Z) (st : Redis.store) :
  let r := overridedBatchLoad keyToString self order now st [] in
  br_values r = [] ∧ br_store r = st ∧ br_fetched r = []
  ∧ loadCached keyToString self order now st [] = (JUndefined, st, []).
Proof.
  assert (∀ l : list (entry (K:=K) (V:=V)),
            l = [] → readCached self now st order l = []) as Hread.
  { intros l ->. unfold readCached. induction order as [|i o IH]; [done|].
    simpl. apply IH. }
  assert (overridedBatchLoad keyToString self order now st []
          = {| br_values := []; br_store := st; br_fetched := [];
               br_map := [] |}) as Hb.
  { unfold overridedBatchLoad. rewrite Hread by done. done. }
  intros r. subst r. unfold loadCached. rewrite Hb. done.
Qed.

(** X11.  When the store does not hold the first key, [loadCached] answers from
    what the fallback fetch returned for it: the not-found handler's
    output or null for no value, null for an error (which is not cached),
    and otherwise the deserialized copy of the value just saved. *)
Theorem loadCached_after_fetch
    (order : list nat) (now : Z) (st : Redis.store) (k : K) (ks : list K) :
  order ≡ₚ seq 0 (length (uniqueRedisKeys keyToString self (k :: ks))) →
  Redis.get now st (rkey k) = None →
  0 < redis_ttl (opts self) → 0 < ttlNotFoundOrDefault self →
  ∃ ms,
    br_fetched (overridedBatchLoad keyToString self order now st (k :: ks)) = [ms]
    ∧ ms !! 0%nat = Some k
    ∧ let v := nth 0 (underlyingBatchLoadFn self ms) JUndefined in
      (loadCached keyToString self order now st (k :: ks)).1.1
      = if isUndefined v || instanceofNotFoundError v then
          coalesce (optCall (notFound (opts self)) k) JNull
        else if instanceofError v then JNull
        else if bool_decide (redis_serialize (opts self) v = NOT_FOUND_STRING)
        then coalesce (optCall (notFound (opts self)) k) JNull
        else redis_deserialize (opts self) k (redis_serialize (opts self) v).
Proof.
  intros Hp Hget Httl HttlNF.
  set (ms := misses keyToString self now st (k :: ks)).
  assert (cached keyToString self now st k = JUndefined) as Hc.
  { unfold cached. by rewrite Hget. }
  assert (ms !! 0%nat = Some k) as Hm0.
  { unfold ms, misses. simpl. rewrite filter_cons, decide_True; [done|].
    by rewrite Hc. }
  exists ms. unfold loadCached. rewrite overridedBatchLoad_unfold by done.
  cbn [br_fetched br_store]. fold ms.
  split_and!; [by destruct ms|done|].
  cbn zeta. cbn [fmap list_fmap zip_with fst].
  destruct (miss_slot keyToString self now st (k :: ks) 0 k Hm0)
    as (_ & Hslot & Hu).
  unfold classifyCached, Redis.get.
  rewrite flush_lookup by apply entries_NoDup.
  rewrite Hslot. cbn [e_value]. rewrite Hu.
  set (v := nth 0 (underlyingBatchLoadFn self ms) JUndefined).
  unfold saved, storeNotFoundError, store, Redis.set. cbn [snd].
  destruct (isUndefined v || instanceofNotFoundError v) eqn:Hnv.
  - rewrite lookup_insert_eq. rewrite bool_decide_eq_true_2 by lia.
    by rewrite bool_decide_eq_true_2.
  - destruct (instanceofError v) eqn:Herr; simpl.
    + unfold Redis.get in Hget. by rewrite Hget.
    + rewrite lookup_insert_eq. by rewrite bool_decide_eq_true_2 by lia.
Qed.

End BatchWrites.

(** ** Constructing twice *)

(** X12.  Once a loader is constructed with the duplicate check on, constructing
    another whose suffixed name is the same fails and leaves the registry
    as it is; a construction never removes a name from the registry. *)
Theorem second_construction_is_rejected {K V : Type}
    (nm nm2 : string) (fn fn2 : list K → list (jsval V)) (o o2 : options)
    (g g' : statics) (ld : RedisDataLoader) :
  construct nm fn o g = (inr ld, g') →
  checkForDuplicates g = true →
  suffixedName nm2 o2 = suffixedName nm o →
  construct nm2 fn2 o2 g'
  = (inl ("RedisDataLoader name " +:+ suffixedName nm o +:+ " already used"), g')
  ∧ usedNames g ⊆ usedNames g'.
Proof.
  unfold construct. intros Hc Hcheck Hname. rewrite Hcheck in Hc. simpl in Hc.
  case_bool_decide as Hin; [done|]. injection Hc as _ <-.
  cbn [checkForDuplicates usedNames]. rewrite Hname.
  rewrite bool_decide_eq_true_2 by set_solver. simpl.
  split; [done|set_solver].
Qed.

(** * Properties of the insertion-ordered map *)

Section JsMapFacts.

Context {K A : Type} `{EqDecision K}.
Implicit Types (m : list (K * A)) (k : K) (x : A).

Lemma JsMap_has_elem k m : JsMap.has k m = true ↔ k ∈ m.*1.
Proof.
  unfold JsMap.has. induction m as [|[k' y] m IH]; simpl.
  { split; [done|]. by intros ?%not_elem_of_nil. }
  case_decide as Hk.
  - subst. split; [|done]. intros _. left.
  - rewrite IH, elem_of_cons. split; [by right|]. by intros [?|?].
Qed.

Lemma JsMap_has_false k m : JsMap.has k m = false ↔ k ∉ m.*1.
Proof.
  rewrite <- JsMap_has_elem. by destruct (JsMap.has k m).
Qed.

Lemma JsMap_get_None k m : JsMap.get k m = None ↔ k ∉ m.*1.
Proof.
  rewrite <- JsMap_has_false. unfold JsMap.has.
  by destruct (JsMap.get k m).
Qed.

Lemma JsMap_get_elem k x m : JsMap.get k m = Some x → (k, x) ∈ m.
Proof.
  induction m as [|[k' y] m IH]; simpl; [done|].
  case_decide as Hk.
  - intros [= ->]. subst. left.
  - intros Hg. right. by apply IH.
Qed.

Lemma JsMap_get_NoDup k x m : NoDup m.*1 → (k, x) ∈ m → JsMap.get k m = Some x.
Proof.
  induction m as [|[k' y] m IH]; simpl; intros Hnd Hin.
  { by apply not_elem_of_nil in Hin. }
  apply NoDup_cons in Hnd as [Hfresh Hnd].
  apply elem_of_cons in Hin as [[= -> ->]|Hin].
  { by rewrite decide_True. }
  rewrite decide_False; [by apply IH|].
  intros ->. apply Hfresh. by apply (list_elem_of_fmap_2 fst) in Hin.
Qed.

Lemma JsMap_get_set_eq k x m : JsMap.get k (JsMap.set k x m) = Some x.
Proof.
  induction m as [|[k' y] m IH]; simpl.
  { by rewrite decide_True. }
  case_decide as Hk; simpl.
  - by rewrite decide_True.
  - by rewrite decide_False.
Qed.

Lemma JsMap_get_set_ne k k' x m :
  k ≠ k' → JsMap.get k' (JsMap.set k x m) = JsMap.get k' m.
Proof.
  intros Hne. induction m as [|[k0 y] m IH]; simpl.
  { by rewrite decide_False. }
  case_decide as Hk; simpl.
  - subst. by rewrite !decide_False.
  - case_decide; [done|apply IH].
Qed.

Lemma JsMap_set_keys k x m :
  (JsMap.set k x m).*1 = if JsMap.has k m then m.*1 else m.*1 ++ [k].
Proof.
  unfold JsMap.has. induction m as [|[k' y] m IH]; simpl; [done|].
  case_decide as Hk; simpl; [done|].
  destruct (JsMap.get k m); f_equal; exact IH.
Qed.

Lemma JsMap_set_fresh k x m : k ∉ m.*1 → JsMap.set k x m = m ++ [(k, x)].
Proof.
  induction m as [|[k' y] m IH]; simpl; [done|].
  rewrite not_elem_of_cons. intros [Hne Hnot].
  rewrite decide_False by done. by rewrite IH.
Qed.

Lemma JsMap_set_NoDup k x m : NoDup m.*1 → NoDup (JsMap.set k x m).*1.
Proof.
  intros Hnd. rewrite JsMap_set_keys.
  destruct (JsMap.has k m) eqn:Hh; [done|].
  apply JsMap_has_false in Hh. apply NoDup_app. split_and!; [done| |apply NoDup_singleton].
  intros y Hy ->%list_elem_of_singleton. done.
Qed.

Lemma JsMap_delete_keys k m :
  (JsMap.delete k m).2.*1 = filter (fun k' => k' ≠ k) m.*1.
Proof.
  unfold JsMap.delete. cbn [snd]. induction m as [|[k' y] m IH]; [done|].
  rewrite fmap_cons, !filter_cons. cbn [fst].
  case_decide; [rewrite fmap_cons; cbn [fst]; f_equal|]; exact IH.
Qed.

Lemma JsMap_delete_NoDup k m : NoDup m.*1 → NoDup (JsMap.delete k m).2.*1.
Proof. intros Hnd. rewrite JsMap_delete_keys. by apply NoDup_filter. Qed.

Lemma JsMap_get_delete_eq k m : JsMap.get k (JsMap.delete k m).2 = None.
Proof.
  apply JsMap_get_None. rewrite JsMap_delete_keys.
  intros Hin. apply list_elem_of_filter in Hin as [Hne _]. done.
Qed.

Lemma JsMap_get_delete_ne k k' m :
  k ≠ k' → JsMap.get k' (JsMap.delete k m).2 = JsMap.get k' m.
Proof.
  intros Hne. unfold JsMap.delete. simpl.
  induction m as [|[k0 y] m IH]; [done|].
  rewrite filter_cons. simpl. case_decide as Hk0; simpl.
  - case_decide; [done|apply IH].
  - subst. by rewrite decide_False.
Qed.

Lemma JsMap_delete_absent k m : k ∉ m.*1 → (JsMap.delete k m).2 = m.
Proof.
  unfold JsMap.delete. simpl. induction m as [|[k' y] m IH]; [done|].
  simpl. rewrite not_elem_of_cons. intros [Hne Hnot].
  rewrite filter_cons. simpl. rewrite decide_True by done. by rewrite IH.
Qed.

Lemma JsMap_delete_length k m :
  NoDup m.*1 →
  Z.of_nat (length (JsMap.delete k m).2)
  = Z.of_nat (length m) - (if JsMap.has k m then 1 else 0).
Proof.
  induction m as [|[k' y] m IH]; simpl; intros Hnd.
  { unfold JsMap.has. simpl. lia. }
  apply NoDup_cons in Hnd as [Hfresh Hnd]. specialize (IH Hnd).
  pose proof (JsMap_delete_absent k m) as Habs.
  unfold JsMap.delete in *. simpl in *. rewrite filter_cons. simpl.
  unfold JsMap.has in *. simpl. destruct (decide (k' = k)) as [->|Hk].
  - rewrite decide_False by (by intros []). rewrite Habs by done. lia.
  - rewrite decide_True by done. simpl length. lia.
Qed.

Lemma JsMap_delete_length_le k m :
  (length (JsMap.delete k m).2 ≤ length m)%nat.
Proof. unfold JsMap.delete. simpl. apply length_filter. Qed.

Lemma JsMap_ofList_from_NoDup (acc items : list (K * A)) :
  NoDup (acc ++ items).*1 →
  foldl (fun m p => JsMap.set p.1 p.2 m) acc items = acc ++ items.
Proof.
  revert acc. induction items as [|[k x] items IH]; intros acc Hnd; simpl.
  { by rewrite app_nil_r. }
  assert (acc ++ (k, x) :: items = (acc ++ [(k, x)]) ++ items) as Hs
    by by rewrite <- app_assoc.
  rewrite Hs in *. rewrite JsMap_set_fresh.
  - by apply IH.
  - rewrite !fmap_app in Hnd. apply NoDup_app in Hnd as [Hnd _].
    apply NoDup_app in Hnd as (_ & Hdis & _).
    intros Hin. apply (Hdis k Hin). simpl. left.
Qed.

Lemma JsMap_ofList_NoDup_id (items : list (K * A)) :
  NoDup items.*1 → JsMap.ofList items = items.
Proof. intros Hnd. by apply (JsMap_ofList_from_NoDup []). Qed.

Lemma JsMap_ofList_from_wf (acc items : list (K * A)) :
  NoDup acc.*1 →
  NoDup (foldl (fun m p => JsMap.set p.1 p.2 m) acc items).*1
  ∧ (length (foldl (fun m p => JsMap.set p.1 p.2 m) acc items)
     ≤ length acc + length items)%nat.
Proof.
  revert acc. induction items as [|[k x] items IH]; intros acc Hnd; simpl.
  { split; [done|lia]. }
  destruct (IH (JsMap.set k x acc)) as [H1 H2]; [by apply JsMap_set_NoDup|].
  split; [done|].
  assert (length (JsMap.set k x acc) ≤ S (length acc))%nat; [|lia].
  rewrite <- (length_fmap fst (JsMap.set k x acc)), JsMap_set_keys.
  destruct (JsMap.has k acc); rewrite ?length_app, length_fmap; simpl; lia.
Qed.

End JsMapFacts.

(** * Properties of QuickLRU *)

Section QuickLRUFacts.

Context {K V : Type} `{EqDecision K}.
Implicit Types (q : QuickLRU.t (K:=K) (V:=V)) (it : QuickLRU.item (V:=V)).

Import QuickLRU.

Lemma wf_emitEvictions c q : wf q → wf (emitEvictions c q).
Proof. unfold emitEvictions. by destruct (p_onEviction q). Qed.

Lemma wf_delete key q : wf q → wf (delete key q).2.
Proof.
  intros (Hs & Hc & Ho & Hlt & Hle). unfold delete.
  pose proof (JsMap_delete_length key (p_cache q) Hc) as Hlen.
  pose proof (JsMap_delete_length_le key (p_oldCache q)) as Hlen'.
  pose proof (JsMap_delete_NoDup key _ Hc) as Hc'.
  pose proof (JsMap_delete_NoDup key _ Ho) as Ho'.
  unfold JsMap.delete in *. cbn [fst snd] in *.
  destruct (JsMap.has key (p_cache q)); unfold wf; simpl; split_and!;
    try done; lia.
Qed.

Lemma deleteIfExpired_unfold now key it q :
  deleteIfExpired now key it q
  = if expired now it then delete key (emitEvictions [(key, it)] q)
    else (false, q).
Proof.
  unfold deleteIfExpired, expired. by destruct (expiry it).
Qed.

Lemma wf_deleteIfExpired now key it q :
  wf q → wf (deleteIfExpired now key it q).2.
Proof.
  intros Hwf. rewrite deleteIfExpired_unfold.
  destruct (expired now it); [|done].
  by apply wf_delete, wf_emitEvictions.
Qed.

Lemma delete_present key q :
  JsMap.has key (p_cache q) = true ∨ JsMap.has key (p_oldCache q) = true →
  (delete key q).1 = true.
Proof.
  unfold delete, JsMap.delete.
  destruct (JsMap.has key (p_cache q)); simpl; [by rewrite orb_true_r|].
  by intros [?| ->].
Qed.

Lemma wf_getItemValue now key it q : wf q → wf (getItemValue now key it q).2.
Proof.
  intros Hwf. unfold getItemValue, getOrDeleteIfExpired.
  destruct (truthy (expiry it)); [|done].
  pose proof (wf_deleteIfExpired now key it q Hwf).
  by destruct (deleteIfExpired now key it q).
Qed.

Lemma wf_set_ key it q :
  wf q → JsMap.has key (p_cache q) = false → wf (set_ key it q).
Proof.
  intros (Hs & Hc & Ho & Hlt & Hle) Hfresh. apply JsMap_has_false in Hfresh.
  unfold set_. rewrite JsMap_set_fresh by done. simpl.
  assert (NoDup (p_cache q ++ [(key, it)]).*1) as Hnd.
  { rewrite <- (JsMap_set_fresh key it) by done. by apply JsMap_set_NoDup. }
  case_bool_decide as Hfull.
  - unfold emitEvictions. simpl.
    destruct (p_onEviction q); unfold wf; simpl;
      rewrite ?length_app; simpl; split_and!; try done; try constructor; lia.
  - unfold wf. simpl. rewrite length_app. simpl. split_and!; try done; lia.
Qed.

Lemma wf_set now key v arg q : wf q → wf (set now key v arg q).
Proof.
  intros Hwf. unfold set.
  destruct (JsMap.has key (p_cache q)) eqn:Hh; [|by apply wf_set_].
  destruct Hwf as (Hs & Hc & Ho & Hlt & Hle). unfold wf. simpl.
  assert (length (JsMap.set key (Item v
            match match arg with Some a => a | None => p_maxAge q end with
            | Some m => Some (now + m) | None => None end) (p_cache q))
          = length (p_cache q)) as Hlen.
  { rewrite <- (length_fmap fst (JsMap.set _ _ _)), JsMap_set_keys, Hh.
    by rewrite length_fmap. }
  split_and!; try done; [by rewrite Hlen|by apply JsMap_set_NoDup].
Qed.

Lemma wf_moveToRecent key it q :
  wf q → JsMap.has key (p_cache q) = false → wf (moveToRecent key it q).
Proof.
  intros (Hs & Hc & Ho & Hlt & Hle) Hfresh. unfold moveToRecent.
  apply wf_set_; [|done]. unfold wf. simpl. split_and!; try done.
  - by apply JsMap_delete_NoDup.
  - pose proof (JsMap_delete_length_le key (p_oldCache q)) as Hl.
    unfold JsMap.delete in Hl. simpl in Hl. lia.
Qed.

Lemma deleteIfExpired_kept now key it q :
  (deleteIfExpired now key it q).1 = false →
  JsMap.has key (p_cache q) = true ∨ JsMap.has key (p_oldCache q) = true →
  expired now it = false ∧ (deleteIfExpired now key it q).2 = q.
Proof.
  rewrite deleteIfExpired_unfold. destruct (expired now it); [|done].
  intros Hd Hin. rewrite delete_present in Hd; [done|].
  unfold emitEvictions. by destruct (p_onEviction q).
Qed.

Lemma wf_get now key q : wf q → wf (get now key q).2.
Proof.
  intros Hwf. unfold get.
  destruct (JsMap.get key (p_cache q)) as [it|] eqn:Hc.
  { by apply wf_getItemValue. }
  destruct (JsMap.get key (p_oldCache q)) as [it|] eqn:Ho; [|done].
  pose proof (wf_deleteIfExpired now key it q Hwf) as Hwf'.
  destruct (deleteIfExpired now key it q) as [d q'] eqn:Hd. simpl in Hwf'.
  destruct d; [done|]. simpl.
  destruct (deleteIfExpired_kept now key it q) as [_ Hq].
  { by rewrite Hd. }
  { right. unfold JsMap.has. by rewrite Ho. }
  rewrite Hd in Hq. simpl in Hq. subst q'.
  apply wf_moveToRecent; [done|]. unfold JsMap.has. by rewrite Hc.
Qed.

Lemma wf_has now key q : wf q → wf (has now key q).2.
Proof.
  intros Hwf. unfold has.
  destruct (JsMap.get key (p_cache q)) as [it|].
  { pose proof (wf_deleteIfExpired now key it q Hwf).
    by destruct (deleteIfExpired now key it q). }
  destruct (JsMap.get key (p_oldCache q)) as [it|]; [|done].
  pose proof (wf_deleteIfExpired now key it q Hwf).
  by destruct (deleteIfExpired now key it q).
Qed.

Lemma wf_peek now key q : wf q → wf (peek now key q).2.
Proof.
  intros Hwf. unfold peek.
  destruct (JsMap.get key (p_cache q)) as [it|]; [by apply wf_getItemValue|].
  destruct (JsMap.get key (p_oldCache q)) as [it|]; [|done].
  by apply wf_getItemValue.
Qed.

Lemma wf_clear q : wf q → wf (clear q).
Proof.
  intros (Hs & Hc & Ho & Hlt & Hle). unfold wf, clear. simpl.
  split_and!; try done; try constructor; lia.
Qed.

(** *** The loops that list the entries *)

Lemma filter_ext_elem {A} (P Q : A → Prop) `{∀ x, Decision (P x)}
    `{∀ x, Decision (Q x)} (l : list A) :
  (∀ x, x ∈ l → P x ↔ Q x) → filter P l = filter Q l.
Proof.
  induction l as [|x l IH]; intros Hext; [done|].
  rewrite !filter_cons.
  assert (filter P l = filter Q l) as ->.
  { apply IH. intros y Hy. apply Hext. by right. }
  destruct (decide (P x)) as [HP|HP], (decide (Q x)) as [HQ|HQ]; try done.
  - exfalso. apply HQ. apply (Hext x); [left|done].
  - exfalso. apply HP. apply (Hext x); [left|done].
Qed.

Lemma delete_fields key q :
  p_maxSize (delete key q).2 = p_maxSize q
  ∧ p_maxAge (delete key q).2 = p_maxAge q
  ∧ p_onEviction (delete key q).2 = p_onEviction q
  ∧ p_cache (delete key q).2 = (JsMap.delete key (p_cache q)).2
  ∧ p_oldCache (delete key q).2 = (JsMap.delete key (p_oldCache q)).2.
Proof.
  unfold delete, JsMap.delete. simpl. by destruct (JsMap.has key (p_cache q)).
Qed.

Lemma emitEvictions_fields c q :
  p_maxSize (emitEvictions c q) = p_maxSize q
  ∧ p_maxAge (emitEvictions c q) = p_maxAge q
  ∧ p_onEviction (emitEvictions c q) = p_onEviction q
  ∧ p_cache (emitEvictions c q) = p_cache q
  ∧ p_oldCache (emitEvictions c q) = p_oldCache q
  ∧ p_size (emitEvictions c q) = p_size q.
Proof. unfold emitEvictions. by destruct (p_onEviction q) eqn:E. Qed.

(** The keys still to be visited are untouched by the deletion of the
    visited one. *)
Lemma visit_fold now (g : bool) (l : list (K * item)) acc q :
  wf q → NoDup l.*1 →
  (∀ p, p ∈ l → JsMap.has p.1 (p_cache q) = true
                ∨ JsMap.has p.1 (p_oldCache q) = true) →
  let r := foldl (visit now g) (acc, q) l in
  wf r.2
  ∧ r.1 = acc ++ filter (fun p => (g && JsMap.has p.1 (p_cache q)) = false
                                  ∧ expired now p.2 = false) l
  ∧ (g = true → p_cache r.2 = p_cache q)
  ∧ p_maxSize r.2 = p_maxSize q
  ∧ p_maxAge r.2 = p_maxAge q.
Proof.
  revert acc q. induction l as [|p l IH]; intros acc q Hwf Hnd Hin; simpl.
  { rewrite app_nil_r. done. }
  rewrite fmap_cons in Hnd. apply NoDup_cons in Hnd as [Hfresh Hnd].
  assert (∀ p', p' ∈ l → p'.1 ≠ p.1) as Hother.
  { intros p' Hp' Heq. apply Hfresh. rewrite <- Heq. by apply list_elem_of_fmap_2. }
  rewrite filter_cons.
  destruct (g && JsMap.has p.1 (p_cache q)) eqn:Hg.
  { assert (visit now g (acc, q) p = (acc, q)) as ->.
    { unfold visit. cbn [fst snd]. by rewrite Hg. }
    rewrite decide_False by (by intros [? _]).
    apply IH; [done|done|]. intros p' Hp'. apply Hin. by right. }
  destruct (expired now p.2) eqn:Hex.
  - rewrite decide_False by (by intros [_ ?]).
    set (q0 := emitEvictions [(p.1, p.2)] q).
    destruct (emitEvictions_fields [(p.1, p.2)] q)
      as (Hms & Hma & _ & Hc0 & Ho0 & _). fold q0 in Hms, Hma, Hc0, Ho0.
    assert ((delete p.1 q0).1 = true) as Hd.
    { apply delete_present. rewrite Hc0, Ho0. apply Hin. left. }
    destruct (delete_fields p.1 q0) as (Hms' & Hma' & _ & Hc' & Ho').
    assert (visit now g (acc, q) p = (acc, (delete p.1 q0).2)) as ->.
    { unfold visit. cbn [fst snd]. rewrite Hg, deleteIfExpired_unfold, Hex.
      fold q0. destruct (delete p.1 q0) as [d q']. simpl in *. by subst d. }
    set (q' := (delete p.1 q0).2) in *.
    assert (∀ p', p' ∈ l →
              JsMap.has p'.1 (p_cache q') = JsMap.has p'.1 (p_cache q)
              ∧ JsMap.has p'.1 (p_oldCache q') = JsMap.has p'.1 (p_oldCache q))
      as Hsame.
    { intros p' Hp'. rewrite Hc', Ho', Hc0, Ho0. unfold JsMap.has.
      rewrite !JsMap_get_delete_ne; [done|..]; intros Heq;
        by apply (Hother p' Hp'). }
    destruct (IH acc q') as (H1 & H2 & H3 & H4 & H5).
    { apply wf_delete. by apply wf_emitEvictions. }
    { done. }
    { intros p' Hp'. destruct (Hsame p' Hp') as [-> ->]. apply Hin. by right. }
    split_and!; [done| | |congruence|congruence].
    + rewrite H2. f_equal. apply filter_ext_elem. intros p' Hp'.
      by destruct (Hsame p' Hp') as [-> _].
    + intros ->. rewrite H3 by done. rewrite Hc', Hc0.
      apply JsMap_delete_absent. apply JsMap_has_false. by simpl in Hg.
  - rewrite decide_True by done.
    assert (visit now g (acc, q) p = (acc ++ [p], q)) as ->.
    { unfold visit. cbn [fst snd]. rewrite Hg, deleteIfExpired_unfold, Hex.
      done. }
    destruct (IH (acc ++ [p]) q) as (H1 & H2 & H3 & H4 & H5); [done|done| |].
    { intros p' Hp'. apply Hin. by right. }
    split_and!; try done. rewrite H2. by rewrite <- app_assoc.
Qed.

Lemma filter_keys_NoDup {A} (P : K * A → Prop) `{∀ x, Decision (P x)}
    (l : list (K * A)) :
  NoDup l.*1 → NoDup (filter P l).*1.
Proof.
  intros Hnd. eapply sublist_NoDup; [exact Hnd|].
  apply fmap_sublist, sublist_filter.
Qed.

Lemma present_in_cache q (l : list (K * item)) :
  (∀ p, p ∈ l → p ∈ p_cache q) →
  ∀ p, p ∈ l → JsMap.has p.1 (p_cache q) = true
               ∨ JsMap.has p.1 (p_oldCache q) = true.
Proof.
  intros Hl p Hp. left. apply JsMap_has_elem.
  apply list_elem_of_fmap_2. by apply Hl.
Qed.

Lemma present_in_oldCache q (l : list (K * item)) :
  (∀ p, p ∈ l → p ∈ p_oldCache q) →
  ∀ p, p ∈ l → JsMap.has p.1 (p_cache q) = true
               ∨ JsMap.has p.1 (p_oldCache q) = true.
Proof.
  intros Hl p Hp. right. apply JsMap_has_elem.
  apply list_elem_of_fmap_2. by apply Hl.
Qed.

(** The private listing: the old entries that no recent entry shadows,
    then the recent ones, the expired ones left out (and deleted). *)
Lemma entriesAscending__spec now q :
  wf q →
  let r := entriesAscending_ now q in
  wf r.2
  ∧ r.1 = filter (fun p => JsMap.has p.1 (p_cache q) = false
                           ∧ expired now p.2 = false) (p_oldCache q)
          ++ filter (fun p => expired now p.2 = false) (p_cache q)
  ∧ NoDup r.1.*1
  ∧ p_maxSize r.2 = p_maxSize q
  ∧ p_maxAge r.2 = p_maxAge q.
Proof.
  intros Hwf. unfold entriesAscending_.
  destruct (visit_fold now true (p_oldCache q) [] q) as (W1 & I1 & C1 & M1 & A1).
  { done. } { apply Hwf. } { by apply present_in_oldCache. }
  set (r1 := foldl (visit now true) ([], q) (p_oldCache q)) in *.
  destruct r1 as [acc1 q1] eqn:Hr1. cbn [fst snd] in *.
  specialize (C1 eq_refl).
  destruct (visit_fold now false (p_cache q1) acc1 q1) as (W2 & I2 & _ & M2 & A2).
  { done. } { apply W1. } { by apply present_in_cache. }
  cbv zeta. cbn [fst snd].
  assert (acc1 = filter (fun p => JsMap.has p.1 (p_cache q) = false
                                  ∧ expired now p.2 = false) (p_oldCache q))
    as Hacc1.
  { rewrite I1. simpl. apply filter_ext_elem. intros p _. simpl. done. }
  assert ((foldl (visit now false) (acc1, q1) (p_cache q1)).1
          = acc1 ++ filter (fun p => expired now p.2 = false) (p_cache q)) as Hitems.
  { rewrite I2, C1. f_equal. apply filter_ext_elem. intros p _. simpl.
    split; [by intros [_ ?]|done]. }
  split_and!; [done| |  |congruence|congruence].
  - by rewrite Hitems, Hacc1.
  - rewrite Hitems, Hacc1, fmap_app. apply NoDup_app. split_and!.
    + apply filter_keys_NoDup, Hwf.
    + intros k Hk1 Hk2.
      apply list_elem_of_fmap in Hk1 as (p1 & -> & Hp1).
      apply list_elem_of_filter in Hp1 as [[Hnot _] _].
      apply JsMap_has_false in Hnot. apply Hnot.
      apply list_elem_of_fmap in Hk2 as (p2 & -> & Hp2).
      apply list_elem_of_filter in Hp2 as [_ Hp2].
      by apply list_elem_of_fmap_2.
    + apply filter_keys_NoDup, Hwf.
Qed.

Lemma wf_iterator now q : wf q → wf (iterator now q).2.
Proof.
  intros Hwf. unfold iterator. cbn [snd].
  destruct (visit_fold now false (p_cache q) [] q) as (W1 & _).
  { done. } { apply Hwf. } { by apply present_in_cache. }
  destruct (foldl (visit now false) ([], q) (p_cache q)) as [acc1 q1].
  cbn [fst snd] in *.
  destruct (visit_fold now true (p_oldCache q1) acc1 q1) as (W2 & _).
  { done. } { apply W1. } { by apply present_in_oldCache. }
  done.
Qed.

Lemma wf_entriesDescending now q : wf q → wf (entriesDescending now q).2.
Proof.
  intros Hwf. unfold entriesDescending. cbn [snd].
  destruct (visit_fold now false (reverse (p_cache q)) [] q) as (W1 & _).
  { done. }
  { rewrite fmap_reverse, reverse_Permutation. apply Hwf. }
  { apply present_in_cache. intros p. by rewrite elem_of_reverse. }
  destruct (foldl (visit now false) ([], q) (reverse (p_cache q))) as [acc1 q1].
  cbn [fst snd] in *.
  destruct (visit_fold now true (reverse (p_oldCache q1)) acc1 q1) as (W2 & _).
  { done. }
  { rewrite fmap_reverse, reverse_Permutation. apply W1. }
  { apply present_in_oldCache. intros p. by rewrite elem_of_reverse. }
  done.
Qed.

Lemma wf_resize now n q q' : wf q → resize now n q = inr q' → wf q'.
Proof.
  intros Hwf. unfold resize. case_bool_decide as Hn; [|done].
  destruct (entriesAscending__spec now q Hwf) as (W & _ & Hnd & _).
  destruct (entriesAscending_ now q) as [items q1]. cbn [fst snd] in *.
  intros [= <-]. destruct W as (Hs & Hc & Ho & Hlt & Hle).
  case_bool_decide as Hrc.
  - rewrite JsMap_ofList_NoDup_id by done.
    unfold wf. simpl. split_and!; try done; [constructor|lia|lia].
  - destruct (JsMap_ofList_from_wf []
                (drop (Z.to_nat (Z.of_nat (length items) - n)) items)) as [Hnd' Hlen'].
    { constructor. }
    rewrite length_drop in Hlen'. simpl in Hlen'.
    assert (∀ q2, p_cache q2 = p_cache q1 → p_oldCache q2 = p_oldCache q1 →
              p_maxSize q2 = p_maxSize q1 →
              wf (withMaxSize n (withSize 0 (withCache []
                   (withOldCache (JsMap.ofList
                      (drop (Z.to_nat (Z.of_nat (length items) - n)) items)) q2)))))
      as Hfin.
    { intros q2 _ _ _. unfold wf. simpl. split_and!; try done; try constructor;
        unfold JsMap.ofList; lia. }
    case_bool_decide; [|by apply Hfin].
    destruct (emitEvictions_fields
                (take (Z.to_nat (Z.of_nat (length items) - n)) items) q1)
      as (? & _ & _ & ? & ? & _).
    by apply Hfin.
Qed.

Lemma wf_step now c q : wf q → wf (step now c q).
Proof.
  intros Hwf. destruct c; simpl.
  - by apply wf_get.
  - by apply wf_set.
  - by apply wf_has.
  - by apply wf_peek.
  - by apply wf_delete.
  - by apply wf_clear.
  - destruct (resize now newSize q) as [?|q'] eqn:Hr; [done|].
    by eapply wf_resize.
  - by apply wf_iterator.
  - unfold entriesAscending. cbn [snd].
    by destruct (entriesAscending__spec now q Hwf) as (W & _).
  - by apply wf_entriesDescending.
Qed.

Lemma wf_run cs q : wf q → wf (run cs q).
Proof.
  revert q. unfold run. induction cs as [|[now c] cs IH]; intros q Hwf; [done|].
  simpl. apply IH. by apply wf_step.
Qed.

Lemma wf_constructor (ms ma : option Z) (oe : bool) q :
  constructor ms ma oe = inr q → wf q.
Proof.
  unfold constructor. destruct ms as [n|]; [|done].
  case_bool_decide; [|done]. case_bool_decide; [done|].
  intros [= <-]. unfold wf. simpl. split_and!; try done; try constructor; lia.
Qed.

Lemma size_bound q : wf q → 0 ≤ size q ≤ p_maxSize q.
Proof.
  intros (Hs & Hc & Ho & Hlt & Hle). unfold size.
  case_bool_decide; [lia|]. lia.
Qed.

(** X13.  Whatever calls are made on a cache once it is constructed, its size
    stays within [maxSize], and it holds fewer than twice [maxSize]
    entries; [#size] counts the recent entries, and no key is repeated
    within the recent entries or within the old ones. *)
Theorem capacity_is_kept (ms ma : option Z) (oe : bool) q0
    (cs : list (Z * call)) :
  constructor ms ma oe = inr q0 →
  let q := run cs q0 in
  0 ≤ size q ≤ maxSize q
  ∧ Z.of_nat (length (p_cache q) + length (p_oldCache q)) < 2 * maxSize q
  ∧ p_size q = Z.of_nat (length (p_cache q))
  ∧ NoDup (p_cache q).*1 ∧ NoDup (p_oldCache q).*1.
Proof.
  intros Hc q. assert (wf q) as Hwf by by eapply wf_run, wf_constructor.
  pose proof (size_bound q Hwf).
  destruct Hwf as (Hs & Hcn & Ho & Hlt & Hle). unfold maxSize.
  split_and!; try done; lia.
Qed.

(** *** Reading back what was stored *)

Lemma set__fields key it q :
  p_maxSize (set_ key it q) = p_maxSize q
  ∧ p_maxAge (set_ key it q) = p_maxAge q.
Proof.
  unfold set_. simpl. case_bool_decide; [|done].
  unfold emitEvictions. simpl. by destruct (p_onEviction q).
Qed.

(** Where [#set] leaves the key: among the recent entries, or, when the
    recent map filled up, among the old ones with the count back at 0. *)
Lemma set__lookup key it q :
  JsMap.get key (p_cache (set_ key it q)) = Some it
  ∨ (p_cache (set_ key it q) = [] ∧ p_size (set_ key it q) = 0
     ∧ JsMap.get key (p_oldCache (set_ key it q)) = Some it).
Proof.
  unfold set_. simpl. case_bool_decide.
  - right. unfold emitEvictions. simpl.
    destruct (p_onEviction q); simpl; by rewrite JsMap_get_set_eq.
  - left. simpl. apply JsMap_get_set_eq.
Qed.

Lemma set_lookup now key v arg q :
  let e := match match arg with Some a => a | None => p_maxAge q end with
           | Some m => Some (now + m)
           | None => None
           end in
  let q' := set now key v arg q in
  JsMap.get key (p_cache q') = Some (Item v e)
  ∨ (p_cache q' = [] ∧ p_size q' = 0
     ∧ JsMap.get key (p_oldCache q') = Some (Item v e)).
Proof.
  intros e q'. subst q'. unfold set. fold e.
  destruct (JsMap.has key (p_cache q)); [|apply set__lookup].
  left. simpl. apply JsMap_get_set_eq.
Qed.

Lemma get_live now key it q :
  expired now it = false →
  JsMap.get key (p_cache q) = Some it
  ∨ (JsMap.get key (p_cache q) = None ∧ JsMap.get key (p_oldCache q) = Some it) →
  (get now key q).1 = Some (value it).
Proof.
  intros Hex Hin. unfold get.
  destruct Hin as [Hc|[Hc Ho]]; rewrite Hc.
  - unfold getItemValue, getOrDeleteIfExpired.
    rewrite deleteIfExpired_unfold, Hex. by destruct (truthy (expiry it)).
  - rewrite Ho, deleteIfExpired_unfold, Hex. done.
Qed.

(** X14.  A value that is set is the value read back, as long as it has not
    expired: with no maximum age, or before the age has run out. *)
Theorem set_then_get now now' key v arg q :
  match match arg with Some a => a | None => p_maxAge q end with
  | Some m => now' < now + m
  | None => True
  end →
  (get now' key (set now key v arg q)).1 = Some v.
Proof.
  intros Hlive.
  set (e := match match arg with Some a => a | None => p_maxAge q end with
            | Some m => Some (now + m)
            | None => None
            end).
  assert (expired now' (Item v e) = false) as Hex.
  { unfold expired, e. simpl.
    destruct (match arg with Some a => a | None => p_maxAge q end); [|done].
    by rewrite bool_decide_eq_false_2 by lia. }
  apply (get_live now' key (Item v e)); [done|].
  destruct (set_lookup now key v arg q) as [Hc|(Hc & _ & Ho)]; [by left|].
  right. fold e in Ho. by rewrite Hc.
Qed.

(** X15.  Once its age has run out an entry is no longer there: [has] answers
    false and [get] undefined, and the key is removed from both maps. *)
Theorem expired_entry_is_dropped now now' key v arg q m :
  match arg with Some a => a | None => p_maxAge q end = Some m →
  now + m ≤ now' → now + m ≠ 0 →
  let q1 := set now key v arg q in
  (has now' key q1).1 = false
  ∧ (get now' key q1).1 = None
  ∧ JsMap.get key (p_cache (get now' key q1).2) = None
  ∧ JsMap.get key (p_oldCache (get now' key q1).2) = None.
Proof.
  intros Hm Hnow Hnz q1.
  pose proof (set_lookup now key v arg q) as Hl. rewrite Hm in Hl.
  cbv zeta in Hl. fold q1 in Hl.
  set (it := Item v (Some (now + m))) in *.
  assert (expired now' it = true) as Hex.
  { unfold expired, it. simpl. by rewrite bool_decide_eq_true_2. }
  assert (truthy (expiry it) = true) as Htr.
  { unfold truthy, it. simpl. by rewrite bool_decide_eq_false_2. }
  assert (∀ q2, (delete key q2).1 = true →
            (delete key q2).1 = true
            ∧ JsMap.get key (p_cache (delete key q2).2) = None
            ∧ JsMap.get key (p_oldCache (delete key q2).2) = None) as Hdel.
  { intros q2 Hd. destruct (delete_fields key q2) as (_ & _ & _ & -> & ->).
    by rewrite !JsMap_get_delete_eq. }
  set (q0 := emitEvictions [(key, it)] q1).
  destruct (emitEvictions_fields [(key, it)] q1) as (_ & _ & _ & Hc0 & Ho0 & _).
  fold q0 in Hc0, Ho0.
  assert ((delete key q0).1 = true) as Hd.
  { apply delete_present. rewrite Hc0, Ho0. unfold JsMap.has.
    destruct Hl as [-> |(_ & _ & ->)]; [by left|by right]. }
  destruct (Hdel q0 Hd) as (_ & Hgc & Hgo).
  unfold has, get, getItemValue, getOrDeleteIfExpired.
  destruct Hl as [Hc|(Hc & _ & Ho)].
  - rewrite Hc, Htr, deleteIfExpired_unfold, Hex. fold q0.
    destruct (delete key q0) as [d q2]. simpl in *. by subst d.
  - rewrite Hc. simpl. rewrite Ho, deleteIfExpired_unfold, Hex. fold q0.
    destruct (delete key q0) as [d q2]. simpl in *. by subst d.
Qed.

(** X16.  After [delete] the key is in neither map, so that [has] answers
    false and [get] and [peek] undefined and none of them touches the
    cache; [delete] answers whether the key was stored. *)
Theorem delete_removes now key q :
  let q1 := (delete key q).2 in
  has now key q1 = (false, q1)
  ∧ get now key q1 = (None, q1)
  ∧ peek now key q1 = (None, q1)
  ∧ (delete key q).1
    = JsMap.has key (p_oldCache q) || JsMap.has key (p_cache q).
Proof.
  intros q1. subst q1.
  destruct (delete_fields key q) as (_ & _ & _ & Hc & Ho).
  unfold has, get, peek. rewrite Hc, Ho, !JsMap_get_delete_eq.
  split_and!; try done.
  unfold delete, JsMap.delete. simpl.
  by destruct (JsMap.has key (p_cache q)).
Qed.

(** X17.  For an entry that has not expired, [peek] and [has] answer without
    touching the cache, and [get] answers the same value. *)
Theorem peek_leaves_cache now key it q :
  expired now it = false →
  JsMap.get key (p_cache q) = Some it
  ∨ (JsMap.get key (p_cache q) = None ∧ JsMap.get key (p_oldCache q) = Some it) →
  peek now key q = (Some (value it), q)
  ∧ has now key q = (true, q)
  ∧ (get now key q).1 = Some (value it).
Proof.
  intros Hex Hin. split_and!; [| |by eapply get_live].
  - unfold peek, getItemValue, getOrDeleteIfExpired.
    destruct Hin as [Hc|[Hc Ho]]; rewrite Hc, ?Ho;
      rewrite deleteIfExpired_unfold, Hex; by destruct (truthy (expiry it)).
  - unfold has.
    destruct Hin as [Hc|[Hc Ho]]; rewrite Hc, ?Ho;
      by rewrite deleteIfExpired_unfold, Hex.
Qed.

(** *** How long an entry stays *)

Section Retention.

Variable key : K.
Variable it : item (V:=V).
Variable M : Z.

(** The entry of [key] is among the recent ones, or among the old ones
    while the recent map has room for [n] more. *)
Local Abbreviation kept n q :=
  (p_maxSize q = M
   ∧ (JsMap.get key (p_cache q) = Some it
      ∨ (JsMap.get key (p_cache q) = None
         ∧ JsMap.get key (p_oldCache q) = Some it
         ∧ p_size q + n < M))).

Lemma kept_delete n k' q : k' ≠ key → kept n q → kept n (delete k' q).2.
Proof.
  intros Hne [HM Hk]. destruct (delete_fields k' q) as (-> & _ & _ & -> & ->).
  split; [done|]. rewrite !JsMap_get_delete_ne by done.
  destruct Hk as [?|(? & ? & Hs)]; [by left|right].
  split_and!; [done|done|].
  unfold delete, JsMap.delete. simpl.
  destruct (JsMap.has k' (p_cache q)); simpl; lia.
Qed.

Lemma kept_emitEvictions n c q : kept n q → kept n (emitEvictions c q).
Proof.
  destruct (emitEvictions_fields c q) as (-> & _ & _ & -> & -> & ->). done.
Qed.

Lemma kept_deleteIfExpired n now k' it' q :
  k' ≠ key → kept n q → kept n (deleteIfExpired now k' it' q).2.
Proof.
  intros Hne Hk. rewrite deleteIfExpired_unfold.
  destruct (expired now it'); [|done].
  by apply kept_delete, kept_emitEvictions.
Qed.

Lemma kept_getItemValue n now k' it' q :
  k' ≠ key → kept n q → kept n (getItemValue now k' it' q).2.
Proof.
  intros Hne Hk. unfold getItemValue, getOrDeleteIfExpired.
  destruct (truthy (expiry it')); [|done].
  pose proof (kept_deleteIfExpired n now k' it' q Hne Hk).
  by destruct (deleteIfExpired now k' it' q).
Qed.

Lemma kept_set_ n k' it' q :
  k' ≠ key → (Z.of_nat n < M - 1) → kept (Z.of_nat (S n)) q →
  kept (Z.of_nat n) (set_ k' it' q).
Proof.
  intros Hne Hn [HM Hk]. destruct (set__fields k' it' q) as [-> _].
  split; [done|]. unfold set_. simpl. case_bool_decide as Hfull.
  - assert (JsMap.get key (p_cache q) = Some it) as Hc.
    { destruct Hk as [?|(_ & _ & Hs)]; [done|]. lia. }
    right. unfold emitEvictions. simpl.
    destruct (p_onEviction q); simpl;
      rewrite JsMap_get_set_ne by done; split_and!; try done; lia.
  - simpl. rewrite JsMap_get_set_ne by done.
    destruct Hk as [?|(? & ? & Hs)]; [by left|right].
    split_and!; [done|done|lia].
Qed.

Lemma kept_weaken n n' q : n' ≤ n → kept n q → kept n' q.
Proof.
  intros Hle [HM Hk]. split; [done|].
  destruct Hk as [?|(? & ? & Hs)]; [by left|right].
  split_and!; [done|done|lia].
Qed.

Lemma kept_step n now c q k' :
  keyOf c = Some k' → k' ≠ key →
  Z.of_nat (n + (if mayInsert c then 1 else 0)) < M →
  kept (Z.of_nat (n + (if mayInsert c then 1 else 0))) q →
  kept (Z.of_nat n) (step now c q).
Proof.
  intros Hkey Hne Hn Hk. destruct c; simplify_eq/=.
  - (* get *)
    unfold get. destruct (JsMap.get k' (p_cache q)) as [it'|].
    { apply kept_getItemValue; [done|]. eapply kept_weaken; [|done]. lia. }
    destruct (JsMap.get k' (p_oldCache q)) as [it'|];
      [|eapply kept_weaken; [|done]; lia].
    pose proof (kept_deleteIfExpired _ now k' it' q Hne Hk) as Hk'.
    destruct (deleteIfExpired now k' it' q) as [d q']. simpl in *.
    destruct d; [eapply kept_weaken; [|done]; lia|].
    unfold moveToRecent. apply kept_set_; [done|lia|].
    replace (Z.of_nat (S n)) with (Z.of_nat (n + 1)) by lia.
    destruct Hk' as [HM Hk']. split; [done|].
    cbn [withOldCache p_cache p_oldCache p_size].
    rewrite JsMap_get_delete_ne by done.
    destruct Hk' as [?|(? & ? & ?)]; [by left|by right].
  - (* set *)
    unfold set. destruct (JsMap.has k' (p_cache q)).
    + destruct Hk as [HM Hk]. split; [done|]. simpl.
      rewrite JsMap_get_set_ne by done.
      destruct Hk as [?|(? & ? & ?)]; [by left|right].
      split_and!; [done|done|lia].
    + apply kept_set_; [done|lia|].
      by replace (Z.of_nat (S n)) with (Z.of_nat (n + 1)) by lia.
  - (* has *)
    rewrite Nat.add_0_r in Hk. unfold has.
    destruct (JsMap.get k' (p_cache q)) as [it'|].
    { pose proof (kept_deleteIfExpired _ now k' it' q Hne Hk).
      by destruct (deleteIfExpired now k' it' q). }
    destruct (JsMap.get k' (p_oldCache q)) as [it'|]; [|done].
    pose proof (kept_deleteIfExpired _ now k' it' q Hne Hk).
    by destruct (deleteIfExpired now k' it' q).
  - (* peek *)
    rewrite Nat.add_0_r in Hk. unfold peek.
    destruct (JsMap.get k' (p_cache q)) as [it'|];
      [by apply kept_getItemValue|].
    destruct (JsMap.get k' (p_oldCache q)) as [it'|]; [|done].
    by apply kept_getItemValue.
  - (* delete *)
    rewrite Nat.add_0_r in Hk. by apply kept_delete.
Qed.

Lemma kept_run (cs : list (Z * call)) q :
  Forall (fun c => ∃ k', keyOf c.2 = Some k' ∧ k' ≠ key) cs →
  Z.of_nat (length (filter (fun c => mayInsert c.2 = true) cs)) < M →
  kept (Z.of_nat (length (filter (fun c => mayInsert c.2 = true) cs))) q →
  kept 0 (run cs q).
Proof.
  revert q. unfold run.
  induction cs as [|[now c] cs IH]; intros q Hcs Hn Hk; [done|].
  apply Forall_cons in Hcs as [(k' & Hkey & Hne) Hcs].
  rewrite filter_cons in Hn, Hk. simpl in *.
  assert (length (if decide (mayInsert c = true)
                  then (now, c) :: filter (fun c => mayInsert c.2 = true) cs
                  else filter (fun c => mayInsert c.2 = true) cs)
          = (length (filter (fun c => mayInsert c.2 = true) cs)
             + (if mayInsert c then 1 else 0))%nat) as Hlen.
  { destruct (mayInsert c); simpl; lia. }
  rewrite Hlen in Hn, Hk.
  apply IH; [done|lia|]. by eapply kept_step.
Qed.

Lemma kept_get now q : expiry it = None → kept 0 q →
  (get now key q).1 = Some (value it).
Proof.
  intros He [_ Hk]. apply (get_live now key it).
  - unfold expired. by rewrite He.
  - destruct Hk as [?|(? & ? & _)]; [by left|by right].
Qed.

End Retention.

(** X18.  An entry that is set with no maximum age is still read back after
    any calls about other keys, as long as fewer than [maxSize] of them
    are [set] or [get]. *)
Theorem recent_entry_survives now now' key v arg q (cs : list (Z * call)) :
  match arg with Some a => a | None => p_maxAge q end = None →
  Forall (fun c => ∃ k', keyOf c.2 = Some k' ∧ k' ≠ key) cs →
  Z.of_nat (length (filter (fun c => mayInsert c.2 = true) cs)) < maxSize q →
  (get now' key (run cs (set now key v arg q))).1 = Some v.
Proof.
  intros Harg Hcs Hn. unfold maxSize in Hn.
  apply (kept_get key (Item v None) (p_maxSize q)); [done|].
  apply kept_run; [done|done|].
  pose proof (set_lookup now key v arg q) as Hl. rewrite Harg in Hl.
  cbv zeta in Hl. split.
  - unfold set. destruct (JsMap.has key (p_cache q)); [done|].
    by destruct (set__fields key (Item v None) q) as [? _]; rewrite Harg.
  - destruct Hl as [?|(Hc & Hs & Ho)]; [by left|right].
    rewrite Hc, Hs. split_and!; [done|done|lia].
Qed.

(** X19.  An entry with no expiry that [get] has just read is still read back
    after any calls about other keys, as long as fewer than [maxSize] of
    them are [set] or [get]. *)
Theorem read_entry_survives now now' key it q (cs : list (Z * call)) :
  expiry it = None →
  JsMap.get key (p_cache q) = Some it
  ∨ (JsMap.get key (p_cache q) = None ∧ JsMap.get key (p_oldCache q) = Some it) →
  Forall (fun c => ∃ k', keyOf c.2 = Some k' ∧ k' ≠ key) cs →
  Z.of_nat (length (filter (fun c => mayInsert c.2 = true) cs)) < maxSize q →
  (get now key q).1 = Some (value it)
  ∧ (get now' key (run cs (get now key q).2)).1 = Some (value it).
Proof.
  intros He Hin Hcs Hn. unfold maxSize in Hn.
  assert (expired now it = false) as Hex by (unfold expired; by rewrite He).
  split; [by eapply get_live|].
  apply (kept_get key it (p_maxSize q)); [done|].
  apply kept_run; [done|done|].
  unfold get. destruct Hin as [Hc|[Hc Ho]]; rewrite Hc.
  - unfold getItemValue. rewrite He. simpl. split; [done|by left].
  - rewrite Ho, deleteIfExpired_unfold, Hex. cbn [snd]. unfold moveToRecent.
    set (q1 := withOldCache _ q).
    destruct (set__fields key it q1) as [-> _]. split; [done|].
    destruct (set__lookup key it q1) as [?|(Hc' & Hs & Ho')]; [by left|right].
    rewrite Hc', Hs. split_and!; [done|done|lia].
Qed.

(** *** Resizing *)

Lemma filter_all {A} (P : A → Prop) `{∀ x, Decision (P x)} (l : list A) :
  (∀ x, x ∈ l → P x) → filter P l = l.
Proof.
  induction l as [|x l IH]; intros Hall; [done|].
  rewrite filter_cons, decide_True by (apply Hall; left).
  f_equal. apply IH. intros y Hy. apply Hall. by right.
Qed.

Lemma resize_fields now n q q' :
  wf q → resize now n q = inr q' →
  let items := (entriesAscending_ now q).1 in
  p_maxSize q' = n ∧ 0 < n
  ∧ ((Z.of_nat (length items) < n
      ∧ p_cache q' = items ∧ p_oldCache q' = []
      ∧ p_size q' = Z.of_nat (length items))
     ∨ (n ≤ Z.of_nat (length items)
        ∧ p_cache q' = []
        ∧ p_oldCache q' = drop (Z.to_nat (Z.of_nat (length items) - n)) items
        ∧ p_size q' = 0)).
Proof.
  intros Hwf. unfold resize. case_bool_decide as Hn; [|done].
  destruct (entriesAscending__spec now q Hwf) as (W & _ & Hnd & _).
  destruct (entriesAscending_ now q) as [items q1]. cbn [fst snd] in *.
  intros [= <-]. split; [done|]. split; [done|].
  case_bool_decide as Hrc.
  - left. rewrite JsMap_ofList_NoDup_id by done. simpl. split_and!; try done. lia.
  - right.
    assert (NoDup (drop (Z.to_nat (Z.of_nat (length items) - n)) items).*1) as Hnd'.
    { eapply sublist_NoDup; [exact Hnd|]. apply fmap_sublist, sublist_drop. }
    rewrite JsMap_ofList_NoDup_id by done.
    split; [lia|]. case_bool_decide; [|done].
    unfold emitEvictions. by destruct (p_onEviction q1).
Qed.

(** X20.  [resize] sets [maxSize] and keeps the entries that come last in the
    ascending listing, as many as the new size allows, in their order;
    the size of the cache is their number. *)
Theorem resize_keeps_newest (ms ma : option Z) (oe : bool) q0
    (cs : list (Z * call)) now n q' :
  constructor ms ma oe = inr q0 →
  let q := run cs q0 in
  resize now n q = inr q' →
  let items := (entriesAscending now q).1 in
  maxSize q' = n
  ∧ (entriesAscending now q').1
    = drop (Z.to_nat (Z.of_nat (length items) - n)) items
  ∧ size q' = Z.min (Z.of_nat (length items)) n.
Proof.
  intros Hc q Hr items.
  assert (wf q) as Hwf by by eapply wf_run, wf_constructor.
  assert (wf q') as Hwf' by by eapply wf_resize.
  destruct (resize_fields now n q q' Hwf Hr) as (HM & Hpos & Hq').
  destruct (entriesAscending__spec now q Hwf) as (_ & Hitems & _).
  destruct (entriesAscending__spec now q' Hwf') as (_ & Hitems' & _).
  unfold items, entriesAscending. cbn [fst snd] in *.
  set (raw := (entriesAscending_ now q).1) in *.
  rewrite length_fmap, <- fmap_drop.
  assert (∀ p, p ∈ raw → expired now p.2 = false) as Hlive.
  { intros p. rewrite Hitems, elem_of_app, !list_elem_of_filter.
    by intros [[[_ ?] _]|[? _]]. }
  split; [done|].
  destruct Hq' as [(Hlt & Hc' & Ho' & Hs')|(Hge & Hc' & Ho' & Hs')].
  - split.
    + f_equal. rewrite Hitems', Ho', Hc'. rewrite filter_nil. simpl.
      replace (Z.to_nat (Z.of_nat (length raw) - n)) with 0%nat by lia.
      rewrite drop_0. by apply filter_all.
    + unfold size. rewrite Hs', Hc', Ho', HM. simpl.
      case_bool_decide; lia.
  - split.
    + f_equal. rewrite Hitems', Ho', Hc'. rewrite filter_nil, app_nil_r.
      apply filter_all. intros p Hp. split; [done|].
      apply Hlive. eapply elem_of_sublist; [exact Hp|apply sublist_drop].
    + unfold size. rewrite Hs', Ho'. rewrite bool_decide_eq_true_2 by done.
      rewrite length_drop. lia.
Qed.

End QuickLRUFacts.

(** *** The listings *)

Section Listings.

Context {K V : Type} `{EqDecision K}.
Implicit Types (q : QuickLRU.t (K:=K) (V:=V)) (it : QuickLRU.item (V:=V)).

Import QuickLRU.

(** What a listing loop leaves in the two maps: the entries whose key it
    did not delete. *)
Lemma visit_fold_state now (g : bool) (l : list (K * item)) acc q :
  wf q → NoDup l.*1 →
  (∀ p, p ∈ l → JsMap.has p.1 (p_cache q) = true
                ∨ JsMap.has p.1 (p_oldCache q) = true) →
  let r := foldl (visit now g) (acc, q) l in
  let D := (filter (fun p => (g && JsMap.has p.1 (p_cache q)) = false
                             ∧ expired now p.2 = true) l).*1 in
  p_cache r.2 = filter (fun p => p.1 ∉ D) (p_cache q)
  ∧ p_oldCache r.2 = filter (fun p => p.1 ∉ D) (p_oldCache q).
Proof.
  revert acc q. induction l as [|p l IH]; intros acc q Hwf Hnd Hin; simpl.
  { split; symmetry; apply filter_all; intros x _; apply not_elem_of_nil. }
  rewrite fmap_cons in Hnd. apply NoDup_cons in Hnd as [Hfresh Hnd].
  assert (∀ p', p' ∈ l → p'.1 ≠ p.1) as Hother.
  { intros p' Hp' Heq. apply Hfresh. rewrite <- Heq. by apply list_elem_of_fmap_2. }
  rewrite filter_cons.
  destruct (g && JsMap.has p.1 (p_cache q)) eqn:Hg.
  { assert (visit now g (acc, q) p = (acc, q)) as ->.
    { unfold visit. cbn [fst snd]. by rewrite Hg. }
    rewrite decide_False by (by intros [? _]).
    apply IH; [done|done|]. intros p' Hp'. apply Hin. by right. }
  destruct (expired now p.2) eqn:Hex.
  - rewrite decide_True by done.
    set (q0 := emitEvictions [(p.1, p.2)] q).
    destruct (emitEvictions_fields [(p.1, p.2)] q)
      as (_ & _ & _ & Hc0 & Ho0 & _). fold q0 in Hc0, Ho0.
    assert ((delete p.1 q0).1 = true) as Hd.
    { apply delete_present. rewrite Hc0, Ho0. apply Hin. left. }
    destruct (delete_fields p.1 q0) as (_ & _ & _ & Hc' & Ho').
    assert (visit now g (acc, q) p = (acc, (delete p.1 q0).2)) as ->.
    { unfold visit. cbn [fst snd]. rewrite Hg, deleteIfExpired_unfold, Hex.
      fold q0. destruct (delete p.1 q0) as [d q']. simpl in *. by subst d. }
    set (q' := (delete p.1 q0).2) in *.
    assert (∀ p', p' ∈ l →
              JsMap.has p'.1 (p_cache q') = JsMap.has p'.1 (p_cache q)
              ∧ JsMap.has p'.1 (p_oldCache q') = JsMap.has p'.1 (p_oldCache q))
      as Hsame.
    { intros p' Hp'. rewrite Hc', Ho', Hc0, Ho0. unfold JsMap.has.
      rewrite !JsMap_get_delete_ne; [done|..]; intros Heq;
        by apply (Hother p' Hp'). }
    destruct (IH acc q') as (H1 & H2).
    { apply wf_delete. by apply wf_emitEvictions. }
    { done. }
    { intros p' Hp'. destruct (Hsame p' Hp') as [-> ->]. apply Hin. by right. }
    assert (filter (fun p0 => (g && JsMap.has p0.1 (p_cache q')) = false
                              ∧ expired now p0.2 = true) l
            = filter (fun p0 => (g && JsMap.has p0.1 (p_cache q)) = false
                                ∧ expired now p0.2 = true) l) as HD.
    { apply filter_ext_elem. intros p' Hp'.
      by destruct (Hsame p' Hp') as [-> _]. }
    rewrite HD in H1, H2. rewrite H1, H2, Hc', Ho', Hc0, Ho0.
    unfold JsMap.delete. cbn [snd]. rewrite !list_filter_filter.
    split; apply filter_ext_elem; intros x _; rewrite fmap_cons, not_elem_of_cons;
      tauto.
  - rewrite decide_False by (intros [_ ?]; congruence).
    assert (visit now g (acc, q) p = (acc ++ [p], q)) as ->.
    { unfold visit. cbn [fst snd]. rewrite Hg, deleteIfExpired_unfold, Hex.
      done. }
    apply IH; [done|done|]. intros p' Hp'. apply Hin. by right.
Qed.

(** After a loop over the recent entries, the old entries that no recent
    entry shadows are the ones there were before it. *)
Lemma old_after_cache now q (l1 : list (K * item)) :
  wf q → l1 ≡ₚ p_cache q →
  let r1 := foldl (visit now false) ([], q) l1 in
  wf r1.2
  ∧ r1.1 = filter (fun p => expired now p.2 = false) l1
  ∧ filter (fun p => (true && JsMap.has p.1 (p_cache r1.2)) = false
                     ∧ expired now p.2 = false) (p_oldCache r1.2)
    = filter (fun p => JsMap.has p.1 (p_cache q) = false
                       ∧ expired now p.2 = false) (p_oldCache q).
Proof.
  intros Hwf Hl1.
  assert (NoDup l1.*1) as Hnd1 by (rewrite Hl1; apply Hwf).
  assert (∀ p, p ∈ l1 → JsMap.has p.1 (p_cache q) = true
                        ∨ JsMap.has p.1 (p_oldCache q) = true) as Hpres.
  { apply present_in_cache. intros p. by rewrite Hl1. }
  destruct (visit_fold now false l1 [] q Hwf Hnd1 Hpres) as (W1 & I1 & _).
  destruct (visit_fold_state now false l1 [] q Hwf Hnd1 Hpres) as (C1 & O1).
  cbv zeta. split; [done|]. split.
  { rewrite I1. simpl. apply filter_ext_elem. intros p _. simpl.
    split; [by intros [_ ?]|done]. }
  rewrite C1, O1. rewrite list_filter_filter.
  set (D := (filter _ l1).*1).
  apply filter_ext_elem. intros p Hp. simpl.
  assert (∀ k, k ∈ D → k ∈ (p_cache q).*1) as HD.
  { intros k Hk. apply list_elem_of_fmap in Hk as (x & -> & Hx).
    apply list_elem_of_filter in Hx as [_ Hx]. rewrite Hl1 in Hx.
    by apply list_elem_of_fmap_2. }
  split.
  - intros [[Hnot Hlive] HnD]. split; [|done].
    apply JsMap_has_false. intros Hk.
    apply list_elem_of_fmap in Hk as ([k e] & Hke & Hin). simpl in Hke.
    destruct (expired now e) eqn:Hex.
    + apply HnD. rewrite Hke. apply (list_elem_of_fmap_2 fst _ (k, e)).
      apply list_elem_of_filter. split; [done|]. by rewrite Hl1.
    + apply JsMap_has_false in Hnot. apply Hnot. rewrite Hke.
      apply (list_elem_of_fmap_2 fst _ (k, e)).
      apply list_elem_of_filter. split; [|done]. simpl.
      intros HkD. apply HnD. by rewrite Hke.
  - intros [Hnot Hlive]. apply JsMap_has_false in Hnot.
    split_and!; [|done|by intros ?%HD].
    apply JsMap_has_false. intros Hk. apply Hnot.
    apply list_elem_of_fmap in Hk as (x & -> & Hx).
    apply list_elem_of_filter in Hx as [_ Hx]. by apply list_elem_of_fmap_2.
Qed.

(** X21.  On a cache reached by calls from its construction, the default
    iteration lists the live recent entries in their insertion order and
    then the live old entries that no recent key shadows, in theirs; the
    ascending listing has the same two runs with the old one first; the
    descending listing is the ascending one reversed.  So the three list
    the same entries, and no key is listed twice. *)
Theorem listings_agree (ms ma : option Z) (oe : bool) q0
    (cs : list (Z * call)) now :
  constructor ms ma oe = inr q0 →
  let q := run cs q0 in
  let out := fun p : K * item => (p.1, value p.2) in
  let recent := out <$> filter (fun p => expired now p.2 = false) (p_cache q) in
  let old := out <$> filter (fun p => JsMap.has p.1 (p_cache q) = false
                                      ∧ expired now p.2 = false) (p_oldCache q) in
  (entriesDescending now q).1 = reverse (entriesAscending now q).1
  ∧ (iterator now q).1 ≡ₚ (entriesAscending now q).1
  ∧ NoDup (entriesAscending now q).1.*1
  ∧ (iterator now q).1 = recent ++ old
  ∧ (entriesAscending now q).1 = old ++ recent.
Proof.
  intros Hc q out recent old.
  assert (wf q) as Hwf by by eapply wf_run, wf_constructor.
  destruct (entriesAscending__spec now q Hwf) as (_ & Hasc & Hnd & _).
  assert ((iterator now q).1 = recent ++ old) as Hit.
  { unfold iterator. cbn [fst].
    destruct (old_after_cache now q (p_cache q) Hwf) as (W1 & I1 & O1); [done|].
    destruct (foldl (visit now false) ([], q) (p_cache q)) as [acc1 q1].
    cbn [fst snd] in *.
    destruct (visit_fold now true (p_oldCache q1) acc1 q1) as (_ & I2 & _).
    { done. } { apply W1. } { by apply present_in_oldCache. }
    by rewrite I2, I1, O1, fmap_app. }
  assert ((entriesAscending now q).1 = old ++ recent) as Has.
  { unfold entriesAscending. cbn [fst]. by rewrite Hasc, fmap_app. }
  split_and!; [| | |exact Hit|exact Has].
  - rewrite Has. unfold entriesDescending. cbn [fst].
    destruct (old_after_cache now q (reverse (p_cache q)) Hwf) as (W1 & I1 & O1).
    { apply reverse_Permutation. }
    destruct (foldl (visit now false) ([], q) (reverse (p_cache q)))
      as [acc1 q1]. cbn [fst snd] in *.
    destruct (visit_fold now true (reverse (p_oldCache q1)) acc1 q1)
      as (_ & I2 & _).
    { done. }
    { rewrite fmap_reverse, reverse_Permutation. apply W1. }
    { apply present_in_oldCache. intros p. by rewrite elem_of_reverse. }
    rewrite I2, I1, !filter_reverse, O1.
    unfold old, recent. rewrite <- fmap_app, <- reverse_app, <- fmap_reverse.
    done.
  - rewrite Hit, Has. apply Permutation_app_comm.
  - unfold entriesAscending. cbn [fst]. rewrite Hasc in *.
    rewrite <- list_fmap_compose.
    erewrite list_fmap_ext; [exact Hnd|]. by intros _ p _.
Qed.

End Listings.

(** ** Worked instances of the further properties *)

(** X2, an instance. *)
Lemma redisKey_namespaces_disjoint_witness :
  name (Demo.ld Demo.plain) = name (Demo.ld Demo.withHandler).
Proof.
  apply (redisKey_namespaces_disjoint id (Demo.ld Demo.plain)
           (Demo.ld Demo.withHandler) "a" "a"); reflexivity.
Defined.

(** X4, an instance. *)
Lemma exist_absent_key_witness :
  exist id (Demo.ld Demo.plain) 0 ∅ "b"
  = (Resolved true, {[ "n:b" := (NOT_FOUND_STRING, 30) ]}, [["b"]]).
Proof.
  rewrite (exist_absent_key id (Demo.ld Demo.plain) 0 ∅ "b").
  - vm_compute. reflexivity.
  - reflexivity.
Defined.

(** X5, an instance. *)
Lemma exist_true_then_false_witness :
  let e1 := exist id (Demo.ld Demo.plain) 0 ∅ "b" in
  e1 = (Resolved true,
        (storeNotFoundError (Demo.ld Demo.plain) 0
           (redisKey id (Demo.ld Demo.plain) "b") ∅).2, [["b"]])
  ∧ exist id (Demo.ld Demo.plain) 29 e1.1.2 "b" = (Resolved false, e1.1.2, []).
Proof.
  apply (exist_true_then_false id (Demo.ld Demo.plain) 0 29 ∅ "b").
  - reflexivity.
  - reflexivity.
  - reflexivity.
  - vm_compute. reflexivity.
Defined.

(** X6, an instance. *)
Lemma load_after_expiry_fetches_witness :
  (load id (Demo.ld Demo.plain) 60
     (prime id (Demo.ld Demo.plain) 0 "a" (JValue "X") ∅) "a").2
  = [["a"]].
Proof.
  apply (load_after_expiry_fetches id (Demo.ld Demo.plain) 0 60 ∅ "a"
           (JValue "X")).
  - reflexivity.
  - vm_compute. discriminate.
Defined.

(** X7, an instance. *)
Lemma load_after_clear_fetches_witness :
  (load id (Demo.ld Demo.plain) 1
     (clearAsync id (Demo.ld Demo.plain) 1 ["b"; "a"] Demo.negative).2 "b").2
  = [["b"]].
Proof.
  destruct (load_after_clear_fetches id (Demo.ld Demo.plain) 1 1
              Demo.negative "b" "b" ["a"]) as (_ & H & _).
  - left.
  - exact H.
Defined.

(** X8, an instance. *)
Lemma batch_store_frame_witness :
  br_store (overridedBatchLoad id (Demo.ld Demo.plain) [0%nat] 0 Demo.negative
              ["a"]) !! "n:b"
  = Some (NOT_FOUND_STRING, 100).
Proof.
  assert ([0%nat]
          ≡ₚ seq 0 (length (uniqueRedisKeys id (Demo.ld Demo.plain) ["a"])))
    as Hp.
  { vm_compute. reflexivity. }
  destruct (batch_store_frame id (Demo.ld Demo.plain) [0%nat] 0 Demo.negative
              ["a"] Hp) as (H & _).
  rewrite H.
  - vm_compute. reflexivity.
  - vm_compute. intros args Hargs Hin.
    apply list_elem_of_singleton in Hargs. subst args.
    apply list_elem_of_singleton in Hin. discriminate.
Defined.


(** X11, an instance. *)
Lemma loadCached_after_fetch_witness :
  ∃ ms,
    br_fetched (overridedBatchLoad id (Demo.ld Demo.plain) [0; 1]%nat 0 ∅
                  ["e"; "a"]) = [ms]
    ∧ ms !! 0%nat = Some "e"
    ∧ (loadCached id (Demo.ld Demo.plain) [0; 1]%nat 0 ∅ ["e"; "a"]).1.1
      = JNull.
Proof.
  assert ([0; 1]%nat
          ≡ₚ seq 0 (length (uniqueRedisKeys id (Demo.ld Demo.plain) ["e"; "a"])))
    as Hp.
  { vm_compute. reflexivity. }
  destruct (loadCached_after_fetch id (Demo.ld Demo.plain) [0; 1]%nat 0 ∅
              "e" ["a"] Hp) as (ms & Hf & H0 & H).
  - reflexivity.
  - reflexivity.
  - reflexivity.
  - exists ms. split; [exact Hf|]. split; [exact H0|].
    rewrite H. vm_compute in Hf. injection Hf as <-. vm_compute. reflexivity.
Defined.

(** X12, an instance. *)
Lemma second_construction_is_rejected_witness :
  construct "n" Demo.source Demo.withHandler
    (construct "n" Demo.source Demo.plain
       {| checkForDuplicates := true; usedNames := ∅ |}).2
  = (inl "RedisDataLoader name n already used",
     (construct "n" Demo.source Demo.plain
        {| checkForDuplicates := true; usedNames := ∅ |}).2).
Proof.
  destruct (second_construction_is_rejected "n" "n" Demo.source Demo.source
              Demo.plain Demo.withHandler
              {| checkForDuplicates := true; usedNames := ∅ |}
              (construct "n" Demo.source Demo.plain
                 {| checkForDuplicates := true; usedNames := ∅ |}).2
              (Demo.ld Demo.plain)) as [H _].
  - vm_compute. reflexivity.
  - reflexivity.
  - reflexivity.
  - rewrite H. vm_compute. reflexivity.
Defined.

(** X13, an instance. *)
Lemma capacity_is_kept_witness :
  let q := QuickLRU.run DemoLRU.threeSets DemoLRU.fresh in
  0 ≤ QuickLRU.size q ≤ QuickLRU.maxSize q
  ∧ Z.of_nat (length (QuickLRU.p_cache q) + length (QuickLRU.p_oldCache q))
    < 2 * QuickLRU.maxSize q
  ∧ QuickLRU.p_size q = Z.of_nat (length (QuickLRU.p_cache q))
  ∧ NoDup (QuickLRU.p_cache q).*1 ∧ NoDup (QuickLRU.p_oldCache q).*1.
Proof.
  apply (capacity_is_kept (Some 2) None false DemoLRU.fresh DemoLRU.threeSets).
  reflexivity.
Defined.

(** X14, an instance. *)
Lemma set_then_get_witness :
  (QuickLRU.get 9 "a" (QuickLRU.set 0 "a" 1 (Some (Some 10)) DemoLRU.fresh)).1
  = Some 1.
Proof.
  apply (set_then_get 0 9 "a" 1 (Some (Some 10)) DemoLRU.fresh).
  vm_compute. reflexivity.
Defined.

(** X15, an instance. *)
Lemma expired_entry_is_dropped_witness :
  (QuickLRU.has 10 "a" (QuickLRU.set 0 "a" 1 (Some (Some 10)) DemoLRU.fresh)).1
  = false.
Proof.
  destruct (expired_entry_is_dropped 0 10 "a" 1 (Some (Some 10)) DemoLRU.fresh 10)
    as [H _].
  - reflexivity.
  - vm_compute. discriminate.
  - vm_compute. discriminate.
  - exact H.
Defined.

(** X17, an instance. *)
Lemma peek_leaves_cache_witness :
  let q := QuickLRU.run DemoLRU.threeSets DemoLRU.fresh in
  QuickLRU.peek 5 "a" q = (Some 1, q).
Proof.
  intros q.
  destruct (peek_leaves_cache 5 "a" (QuickLRU.Item 1 None) q) as [H _].
  - reflexivity.
  - right. split; reflexivity.
  - exact H.
Defined.

(** X18, an instance. *)
Lemma recent_entry_survives_witness :
  (QuickLRU.get 5 "z"
     (QuickLRU.run [(1, QuickLRU.CSet "a" 1 None)]
        (QuickLRU.set 0 "z" 26 None DemoLRU.fresh))).1
  = Some 26.
Proof.
  apply (recent_entry_survives 0 5 "z" 26 None DemoLRU.fresh
           [(1, QuickLRU.CSet "a" 1 None)]).
  - reflexivity.
  - constructor; [|constructor].
    exists "a". split; [reflexivity|discriminate].
  - vm_compute. reflexivity.
Defined.

(** X19, an instance. *)
Lemma read_entry_survives_witness :
  let q := QuickLRU.run DemoLRU.threeSets DemoLRU.fresh in
  (QuickLRU.get 5 "a" q).1 = Some 1
  ∧ (QuickLRU.get 7 "a"
       (QuickLRU.run [(6, QuickLRU.CSet "d" 4 None)] (QuickLRU.get 5 "a" q).2)).1
    = Some 1.
Proof.
  intros q.
  apply (read_entry_survives 5 7 "a" (QuickLRU.Item 1 None) q
           [(6, QuickLRU.CSet "d" 4 None)]).
  - reflexivity.
  - right. split; reflexivity.
  - constructor; [|constructor].
    exists "d". split; [reflexivity|discriminate].
  - vm_compute. reflexivity.
Defined.

(** X20, an instance. *)
Lemma resize_keeps_newest_witness :
  let q := QuickLRU.run DemoLRU.threeSets DemoLRU.fresh in
  ∃ q', QuickLRU.resize 3 1 q = inr q'
        ∧ (QuickLRU.entriesAscending 3 q').1 = [("c", 3)]
        ∧ QuickLRU.size q' = 1.
Proof.
  intros q.
  destruct (QuickLRU.resize 3 1 q) as [?|q'] eqn:Hr; [vm_compute in Hr; discriminate|].
  exists q'. split; [reflexivity|].
  destruct (resize_keeps_newest (Some 2) None false DemoLRU.fresh
              DemoLRU.threeSets 3 1 q' eq_refl Hr) as (_ & H1 & H2).
  split; [rewrite H1|rewrite H2]; vm_compute; reflexivity.
Defined.

(** X21, an instance: with room for two, [a] and [b] have become old
    entries when [c] is set; the iteration lists [c] first. *)
Lemma listings_agree_witness :
  let q := QuickLRU.run DemoLRU.threeSets DemoLRU.fresh in
  (QuickLRU.iterator 3 q).1 = [("c", 3); ("a", 1); ("b", 2)]
  ∧ (QuickLRU.entriesAscending 3 q).1 = [("a", 1); ("b", 2); ("c", 3)]
  ∧ (QuickLRU.entriesDescending 3 q).1 = [("c", 3); ("b", 2); ("a", 1)].
Proof.
  intros q.
  destruct (listings_agree (Some 2) None false DemoLRU.fresh DemoLRU.threeSets 3)
    as (Hd & _ & _ & Hi & Ha).
  { reflexivity. }
  fold q in Hd, Hi, Ha.
  split; [rewrite Hi; vm_compute; reflexivity|].
  split; [rewrite Ha; vm_compute; reflexivity|].
  rewrite Hd, Ha. vm_compute. reflexivity.
Defined.

(** * The key cache of camelCaseKeys *)

Lemma underscore_inj (k1 k2 : string) : k1 +:+ "_" = k2 +:+ "_" → k1 = k2.
Proof.
  revert k2. induction k1 as [|a k1 IH]; intros [|b k2] Heq;
    simplify_eq/=; try done.
  - by destruct k2.
  - by destruct k1.
  - f_equal. by apply IH.
Qed.

Section KeyCache.

Import QuickLRU.

Variable camelCase : string → bool → string.
Variable keyLength : string → Z.
Variable pascalCase : bool.

Implicit Types (q : QuickLRU.t (K:=string) (V:=string)).

(** Every entry of the cache holds, with no expiry, the camel case of
    the key it was stored for. *)
Local Abbreviation sound l :=
  (Forall (fun p : string * item (V:=string) =>
             expiry p.2 = None
             ∧ ∀ key, (if pascalCase then key +:+ "_" else key) = p.1 →
                      value p.2 = camelCase key pascalCase) l).

Lemma sound_lookup (l : list (string * item)) ck it :
  sound l → JsMap.get ck l = Some it →
  expiry it = None
  ∧ ∀ key, (if pascalCase then key +:+ "_" else key) = ck →
           value it = camelCase key pascalCase.
Proof.
  intros Hs Hg. apply JsMap_get_elem in Hg.
  rewrite Forall_forall in Hs. by apply (Hs (ck, it)).
Qed.

Lemma sound_set (l : list (string * item)) ck it :
  sound l → sound [(ck, it)] → sound (JsMap.set ck it l).
Proof.
  intros Hl Hit. induction l as [|[k' y] l IH]; simpl; [done|].
  apply Forall_cons in Hl as [Hy Hl]. case_decide as Hk.
  - subst. constructor; [|done]. by apply Forall_cons in Hit as [? _].
  - constructor; [done|by apply IH].
Qed.

Lemma sound_delete (l : list (string * item)) ck :
  sound l → sound (JsMap.delete ck l).2.
Proof.
  intros Hl. unfold JsMap.delete. cbn [snd]. rewrite Forall_forall in *.
  intros p Hp. apply list_elem_of_filter in Hp as [_ Hp]. by apply Hl.
Qed.

Lemma sound_set_ ck it q :
  sound (p_cache q) → sound (p_oldCache q) → sound [(ck, it)] →
  sound (p_cache (set_ ck it q)) ∧ sound (p_oldCache (set_ ck it q)).
Proof.
  intros Hc Ho Hit. unfold set_. simpl. case_bool_decide.
  - unfold emitEvictions. simpl. destruct (p_onEviction q); simpl;
      (split; [constructor|by apply sound_set]).
  - simpl. split; [by apply sound_set|done].
Qed.

Lemma renameKey_sound exclude now key q :
  sound (p_cache q) → sound (p_oldCache q) → p_maxAge q = None →
  let r := CamelCaseKeys.renameKey camelCase keyLength exclude pascalCase now key q in
  sound (p_cache r.2) ∧ sound (p_oldCache r.2) ∧ p_maxAge r.2 = None
  ∧ p_maxSize r.2 = p_maxSize q
  ∧ r.1 = Some (if match exclude with
                   | Some array => CamelCaseKeys.has array key
                   | None => false
                   end
                then key else camelCase key pascalCase).
Proof.
  intros Hc Ho Hma. unfold CamelCaseKeys.renameKey.
  destruct (match exclude with Some a => CamelCaseKeys.has a key | None => false end);
    simpl; [done|].
  set (ck := if pascalCase then key +:+ "_" else key).
  unfold has, get.
  destruct (JsMap.get ck (p_cache q)) as [it|] eqn:Hgc.
  { destruct (sound_lookup _ _ _ Hc Hgc) as [He Hv].
    rewrite deleteIfExpired_unfold. unfold expired. rewrite He. simpl.
    rewrite Hgc. unfold getItemValue. rewrite He. simpl.
    split_and!; try done. f_equal. by apply Hv. }
  destruct (JsMap.get ck (p_oldCache q)) as [it|] eqn:Hgo.
  { destruct (sound_lookup _ _ _ Ho Hgo) as [He Hv].
    rewrite deleteIfExpired_unfold. unfold expired. rewrite He. simpl.
    rewrite Hgc, Hgo. rewrite deleteIfExpired_unfold. unfold expired.
    rewrite He. simpl. unfold moveToRecent.
    set (q1 := withOldCache _ q).
    destruct (sound_set_ ck it q1) as [Hc' Ho']; [done| |  |].
    { by apply sound_delete. }
    { constructor; [|constructor]. done. }
    destruct (set__fields ck it q1) as [-> ->].
    split_and!; try done. f_equal. by apply Hv. }
  simpl.
  assert (JsMap.has ck (p_cache q) = false) as Hnot
    by (unfold JsMap.has; by rewrite Hgc).
  assert (sound [(ck, Item (camelCase key pascalCase) None)]) as Hnew.
  { constructor; [|constructor]. simpl. split; [done|].
    intros key' Hk'. unfold ck in Hk'. destruct pascalCase.
    - by apply underscore_inj in Hk' as ->.
    - by subst. }
  case_bool_decide; [|done].
  unfold set. rewrite Hma, Hnot.
  destruct (sound_set_ ck (Item (camelCase key pascalCase) None) q)
    as [Hc' Ho']; [done|done|done|].
  by destruct (set__fields ck (Item (camelCase key pascalCase) None) q)
    as [-> ->].
Qed.

(** X22.  Within one call, whatever keys were renamed before, a key is renamed
    to its camel case, or left as it is when excluded: the cache changes
    no result. *)
Theorem key_cache_is_transparent
    (exclude : option (list CamelCaseKeys.pattern))
    (q0 : QuickLRU.t (K:=string) (V:=string))
    (before : list (Z * string)) (now : Z) (key : string) :
  CamelCaseKeys.cache = inr q0 →
  (CamelCaseKeys.renameKey camelCase keyLength exclude pascalCase now key
     (CamelCaseKeys.renameKeys camelCase keyLength exclude pascalCase before q0)).1
  = Some (if match exclude with
             | Some array => CamelCaseKeys.has array key
             | None => false
             end
          then key else camelCase key pascalCase).
Proof.
  intros [= <-].
  set (q0 := Make 0 [] [] 1000 None false []).
  assert (sound (p_cache q0) ∧ sound (p_oldCache q0) ∧ p_maxAge q0 = None) as H0.
  { split_and!; [constructor|constructor|done]. }
  assert (∀ q, sound (p_cache q) ∧ sound (p_oldCache q) ∧ p_maxAge q = None →
            let q' := CamelCaseKeys.renameKeys camelCase keyLength exclude
                        pascalCase before q in
            sound (p_cache q') ∧ sound (p_oldCache q') ∧ p_maxAge q' = None)
    as Hrun.
  { unfold CamelCaseKeys.renameKeys.
    induction before as [|[t k] l IH]; intros q Hq; [done|]. simpl.
    apply IH. destruct Hq as (Hc & Ho & Hm).
    by destruct (renameKey_sound exclude t k q Hc Ho Hm) as (? & ? & ? & _). }
  destruct (Hrun q0 H0) as (Hc & Ho & Hm).
  by destruct (renameKey_sound exclude now key _ Hc Ho Hm) as (_ & _ & _ & _ & ?).
Qed.

End KeyCache.

(** X22, an instance. *)
Lemma key_cache_is_transparent_witness :
  (CamelCaseKeys.renameKey (fun k _ => "x" +:+ k)
     (fun k => Z.of_nat (String.length k)) None false 2 "a_b"
     (CamelCaseKeys.renameKeys (fun k _ => "x" +:+ k)
        (fun k => Z.of_nat (String.length k)) None false
        [(0, "a_b"); (1, "c_d")] DemoLRU.thousand)).1
  = Some "xa_b".
Proof.
  apply (key_cache_is_transparent (fun k _ => "x" +:+ k)
           (fun k => Z.of_nat (String.length k)) false None DemoLRU.thousand
           [(0, "a_b"); (1, "c_d")] 2 "a_b").
  reflexivity.
Defined.
